(** * Almost Stochastic Order: a shallow embedding of [deepsig/aso.py]

    The development follows the Python module function by function:
    [_quantile_function], [compute_violation_ratio],
    [get_bootstrap_estimates], [aso], [multi_aso],
    [normal_inverse_gamma_cdf] and [bf_aso].

    Conventions of the embedding.
    - A float64 is a real number (rounding and overflow are idealised
      away).  Where numpy or scipy return [inf] or [nan] from finite
      arguments ([normal.ppf] at 0 and 1, [np.log] of a non-positive
      number, a numpy division by zero, [np.std] of an empty array) the
      value lives in [xreal], the reals extended with the two infinities
      and [nan], with the arithmetic of IEEE 754 on the special values.
    - A Python exception is a value of [exn]; a computation that may
      raise returns a [res].
    - Effects are threaded through a state-and-exception monad [M] over
      a [World]: the state of numpy's global random generator, the
      decisions the worker pool's scheduler is going to take, and the log
      of what the program did (warnings, bootstrap iterations).
    - What the module imports from numpy, scipy and joblib and that has
      no counterpart in the standard library of reals is a field of the
      class [Externals].
    - A collection of scores is a nested list of floats (the first of the
      representations [multi_aso] accepts); progress bars and the
      conversion of the result to a data frame are left out. *)

From Stdlib Require Import String Reals Lra Lia ZArith List Bool Permutation Sorted Psatz.
Import ListNotations.
Open Scope R_scope.

(** ** Extended reals: the special values of float64 *)

Inductive xreal : Type :=
| Fin (r : R)
| PInf
| NInf
| NaN.

(** [a < b] on floats; every comparison with [nan] is false. *)
Definition xlt (a b : xreal) : bool :=
  match a, b with
  | Fin x, Fin y => if Rlt_dec x y then true else false
  | Fin _, PInf => true
  | NInf, Fin _ => true
  | NInf, PInf => true
  | _, _ => false
  end.

(** The infinity with the sign of [x]; [nan] when [x] is zero. *)
Definition signed_inf (x : R) : xreal :=
  if Rlt_dec 0 x then PInf else if Rlt_dec x 0 then NInf else NaN.

Definition xneg (a : xreal) : xreal :=
  match a with
  | Fin x => Fin (- x)
  | PInf => NInf
  | NInf => PInf
  | NaN => NaN
  end.

Definition xadd (a b : xreal) : xreal :=
  match a, b with
  | Fin x, Fin y => Fin (x + y)
  | NaN, _ | _, NaN => NaN
  | PInf, NInf | NInf, PInf => NaN
  | PInf, _ | _, PInf => PInf
  | NInf, _ | _, NInf => NInf
  end.

Definition xsub (a b : xreal) : xreal := xadd a (xneg b).

Definition xmul (a b : xreal) : xreal :=
  match a, b with
  | Fin x, Fin y => Fin (x * y)
  | NaN, _ | _, NaN => NaN
  | Fin x, PInf | PInf, Fin x => signed_inf x
  | Fin x, NInf | NInf, Fin x => signed_inf (- x)
  | PInf, PInf | NInf, NInf => PInf
  | PInf, NInf | NInf, PInf => NInf
  end.

(** numpy's division: a division by zero yields an infinity or [nan]
    (Python's own [/] on ints and floats raises instead, see
    [py_div]). *)
Definition xdiv (a b : xreal) : xreal :=
  match a, b with
  | Fin x, Fin y => if Req_dec_T y 0 then signed_inf x else Fin (x / y)
  | NaN, _ | _, NaN => NaN
  | Fin _, _ => Fin 0
  | PInf, Fin y => if Rlt_dec y 0 then NInf else PInf
  | NInf, Fin y => if Rlt_dec y 0 then PInf else NInf
  | _, _ => NaN
  end.

(** Python's builtins [max(a, b)] and [min(a, b)]: the first argument is
    kept unless the second compares strictly greater (smaller), so a
    [nan] in first position is returned. *)
Definition py_max (a b : xreal) : xreal := if xlt a b then b else a.
Definition py_min (a b : xreal) : xreal := if xlt b a then b else a.

(** The same on finite values. *)
Definition py_maxR (a b : R) : R := if Rlt_dec a b then b else a.

(** A number as Python sees it: one of its own ints, or a numpy float.
    The violation ratio is the first in the degenerate branch of
    [compute_violation_ratio] (the literal [0]) and the second
    everywhere else. *)
Inductive pynum : Type :=
| PyInt (n : Z)
| NpFloat (x : R).

Definition num_val (v : pynum) : R :=
  match v with
  | PyInt n => IZR n
  | NpFloat x => x
  end.

(** ** Exceptions and results *)

Inductive exn : Type :=
| AssertionError
| IndexError
| ValueError
| ZeroDivisionError
| TypeError.

Inductive res (A : Type) : Type :=
| Ok (a : A)
| Raise (e : exn).
Arguments Ok {A} a.
Arguments Raise {A} e.

Definition rbind {A B} (r : res A) (f : A -> res B) : res B :=
  match r with
  | Ok a => f a
  | Raise e => Raise e
  end.

(** Python's [/] on its own numbers. *)
Definition py_div (x y : R) : res R :=
  if Req_dec_T y 0 then Raise ZeroDivisionError else Ok (x / y).

(** [l[i]] with Python's negative indices. *)
Definition py_index {A} (l : list A) (i : Z) : res A :=
  let n := Z.of_nat (length l) in
  let k := if (i <? 0)%Z then (n + i)%Z else i in
  if ((0 <=? k) && (k <? n))%Z%bool then
    match nth_error l (Z.to_nat k) with
    | Some a => Ok a
    | None => Raise IndexError
    end
  else Raise IndexError.

(** ** What the module imports *)

Class Externals : Type := {
  (** state of numpy's global generator, [np.random.seed] and one draw of
      [np.random.uniform(0, 1)] *)
  G : Type;
  seed_state : Z -> G;
  next_uniform : G -> R * G;
  (** [scipy.stats.norm.ppf] inside (0,1), where it is finite *)
  probit : R -> R;
  (** [scipy.special.erf] and [scipy.special.gamma] on finite arguments *)
  erf : R -> R;
  gamma : R -> xreal;
  (** [x ** y] in numpy outside the case of a positive finite base *)
  power_special : xreal -> xreal -> xreal
}.

(** ** The world and the monad *)

Inductive event : Type :=
| Warning (msg : string)
| BootstrapIter (seed : option Z).

Section Model.
Context {E : Externals}.

Record World : Type := mkWorld {
  rng : G;
  sched : list nat;
  events : list event
}.

Definition M (A : Type) : Type := World -> res A * World.

Definition ret {A} (a : A) : M A := fun w => (Ok a, w).

Definition raise {A} (e : exn) : M A := fun w => (Raise e, w).

Definition bind {A B} (m : M A) (f : A -> M B) : M B :=
  fun w =>
    match m w with
    | (Ok a, w') => f a w'
    | (Raise e, w') => (Raise e, w')
    end.

Definition lift {A} (r : res A) : M A := fun w => (r, w).

Definition py_assert (b : bool) : M unit :=
  if b then ret tt else raise AssertionError.

Definition warn (msg : string) : M unit :=
  fun w => (Ok tt, mkWorld (rng w) (sched w) (events w ++ [Warning msg])).

Definition log_iter (seed : option Z) : M unit :=
  fun w => (Ok tt, mkWorld (rng w) (sched w) (events w ++ [BootstrapIter seed])).

End Model.

Notation "x <- m ;; k" := (bind m (fun x => k))
  (at level 61, m at next level, right associativity).
Notation "m ;;; k" := (bind m (fun _ => k))
  (at level 61, right associativity).

(** ** [np.sort] *)

Fixpoint insert (x : R) (l : list R) : list R :=
  match l with
  | [] => [x]
  | y :: l' => if Rle_dec x y then x :: l else y :: insert x l'
  end.

Fixpoint np_sort (l : list R) : list R :=
  match l with
  | [] => []
  | x :: l' => insert x (np_sort l')
  end.

(** ** [get_quantile_function] *)

(** The closure [_quantile_function] that [get_quantile_function(scores)]
    returns, applied to one probability. *)
Definition _quantile_function (scores : list R) (p : R) : res R :=
  let cdf := np_sort scores in
  let num := Z.of_nat (length scores) in
  let index := Zceil (IZR num * p) in
  py_index cdf (Z.min (num - 1) (Z.max 0 (index - 1))).

(** [np.vectorize(f)] applied to an array: elementwise, and a
    [ValueError] on an array of size 0. *)
Fixpoint map_res {A B} (f : A -> res B) (l : list A) : res (list B) :=
  match l with
  | [] => Ok []
  | a :: l' =>
      rbind (f a) (fun b => rbind (map_res f l') (fun bs => Ok (b :: bs)))
  end.

Definition np_vectorize {A B} (f : A -> res B) (arr : list A) : res (list B) :=
  match arr with
  | [] => Raise ValueError
  | _ => map_res f arr
  end.

Definition get_quantile_function (scores : list R) (ps : list R) : res (list R) :=
  np_vectorize (_quantile_function scores) ps.

(** ** [compute_violation_ratio] *)

(** [np.arange(start, stop, step)]: [ceil((stop - start) / step)] points
    [start + k * step]; no point when that number is not positive, and an
    exception on a zero step (numpy cannot compute the length). *)
Definition np_arange (start stop step : R) : res (list R) :=
  if Req_dec_T step 0 then Raise ZeroDivisionError
  else Ok (map (fun k => start + INR k * step)
               (seq 0 (Z.to_nat (Zceil ((stop - start) / step))))).

(** A [for] loop whose body may raise, with the loop's variables as
    state. *)
Fixpoint for_res {S A} (body : S -> A -> res S) (l : list A) (s : S) : res S :=
  match l with
  | [] => Ok s
  | x :: l' => rbind (body s x) (for_res body l')
  end.

(** The body of the integration loop; the state is
    [(squared_wasserstein_dist, int_violation_set)]. *)
Definition violation_step (scores_a scores_b : list R) (dt : R)
    (acc : R * R) (p : R) : res (R * R) :=
  rbind (_quantile_function scores_b p) (fun qb =>
  rbind (_quantile_function scores_a p) (fun qa =>
    let diff := qb - qa in
    Ok (fst acc + diff ^ 2 * dt, snd acc + py_maxR diff 0 ^ 2 * dt))).

(** The loop of [compute_violation_ratio] over the whole grid. *)
Definition violation_integrals (scores_a scores_b : list R) (dt : R) : res (R * R) :=
  rbind (np_arange 0 1 dt) (fun grid =>
    for_res (violation_step scores_a scores_b dt) grid (0, 0)).

Definition zero_division_warning : string :=
  "Division by zero encountered in violation ratio.".

Section Bootstrap.
Context {E : Externals}.

Definition compute_violation_ratio (scores_a scores_b : list R) (dt : R) : M pynum :=
  acc <- lift (violation_integrals scores_a scores_b dt) ;;
  let squared_wasserstein_dist := fst acc in
  let int_violation_set := snd acc in
  if Req_dec_T squared_wasserstein_dist 0 then
    warn zero_division_warning ;;; ret (PyInt 0)
  else ret (NpFloat (int_violation_set / squared_wasserstein_dist)).

(** ** numpy's global random generator *)

Fixpoint draw_uniform (n : nat) (g : G) : list R * G :=
  match n with
  | O => ([], g)
  | S n' =>
      let (u, g1) := next_uniform g in
      let (us, g2) := draw_uniform n' g1 in
      (u :: us, g2)
  end.

Definition np_random_seed (s : Z) : M unit :=
  fun w => (Ok tt, mkWorld (seed_state s) (sched w) (events w)).

Definition np_random_uniform (size : Z) : M (list R) :=
  if (size <? 0)%Z then raise ValueError
  else fun w =>
    let (us, g) := draw_uniform (Z.to_nat size) (rng w) in
    (Ok us, mkWorld g (sched w) (events w)).

(** ** [joblib.Parallel] *)

(** The scheduler's next decision: which of the pending tasks runs next.
    With one job the tasks run in the order they were submitted. *)
Definition next_choice (n_jobs : Z) : M nat :=
  fun w =>
    if (n_jobs =? 1)%Z then (Ok O, w)
    else match sched w with
         | [] => (Ok O, w)
         | c :: s => (Ok c, mkWorld (rng w) s (events w))
         end.

Fixpoint remove_nth {A} (k : nat) (l : list A) : list A :=
  match l, k with
  | [], _ => []
  | _ :: l', O => l'
  | x :: l', S k' => x :: remove_nth k' l'
  end.

Fixpoint list_set {A} (l : list A) (k : nat) (v : A) : list A :=
  match l, k with
  | [], _ => []
  | _ :: l', O => v :: l'
  | x :: l', S k' => x :: list_set l' k' v
  end.

(** The pool: as long as tasks are pending, the scheduler picks one, it
    runs to its end on the current world, and its result goes to the slot
    of its index.  An exception in a task ends the run. *)
Fixpoint run_pool {A} (n_jobs : Z) (fuel : nat) (pending : list (nat * M A))
    (slots : list (option A)) : M (list (option A)) :=
  match fuel with
  | O => ret slots
  | S fuel' =>
      c <- next_choice n_jobs ;;
      let k := Nat.modulo c (length pending) in
      match nth_error pending k with
      | None => ret slots
      | Some (i, task) =>
          a <- task ;;
          run_pool n_jobs fuel' (remove_nth k pending) (list_set slots i (Some a))
      end
  end.

Definition filled {A} (slots : list (option A)) : list A :=
  flat_map (fun s => match s with Some a => [a] | None => [] end) slots.

(** [Parallel(n_jobs=num_jobs)(tasks)]: every task runs once, in the
    order the scheduler decides; the results come back in the order of
    the tasks. *)
Definition Parallel {A} (n_jobs : Z) (tasks : list (M A)) : M (list A) :=
  if (n_jobs =? 0)%Z then raise ValueError
  else
    slots <- run_pool n_jobs (length tasks)
               (combine (seq 0 (length tasks)) tasks)
               (repeat None (length tasks)) ;;
    ret (filled slots).

(** ** [get_bootstrap_estimates] *)

Definition sum_list (l : list R) : R := fold_right Rplus 0 l.

Definition mean_list (l : list R) : R := sum_list l / INR (length l).

(** [np.std]: the square root of the mean squared deviation; [nan] on an
    empty array. *)
Definition np_std (l : list R) : xreal :=
  match l with
  | [] => NaN
  | _ => Fin (sqrt (mean_list (map (fun x => (x - mean_list l) ^ 2) l)))
  end.

(** One bootstrap iteration (the inner function of
    [get_bootstrap_estimates]).  [log_iter] is the only addition to the
    source: it records in the world that the iteration has started. *)
Definition _bootstrap_iter (scores_a scores_b : list R) (num_samples : Z)
    (dt : R) (seed : option Z) : M pynum :=
  log_iter seed ;;;
  match seed with
  | Some s => np_random_seed s
  | None => ret tt
  end ;;;
  ua <- np_random_uniform num_samples ;;
  sampled_scores_a <- lift (get_quantile_function scores_a ua) ;;
  ub <- np_random_uniform num_samples ;;
  sampled_scores_b <- lift (get_quantile_function scores_b ub) ;;
  compute_violation_ratio sampled_scores_a sampled_scores_b dt.

(** [range(1, n + 1)] *)
Definition offsets (n : Z) : list Z :=
  map (fun k => Z.of_nat k) (seq 1 (Z.to_nat n)).

(** The list [seeds]. *)
Definition bootstrap_seeds (seed : option Z) (num_bootstrap_iterations : Z)
    : list (option Z) :=
  match seed with
  | None => repeat None (Z.to_nat num_bootstrap_iterations)
  | Some s => map (fun offset => Some (s + offset)%Z) (offsets num_bootstrap_iterations)
  end.

(** [samples - violation_ratio], where [samples] is the Python list that
    [Parallel] returned: a numpy float on the right turns the list into
    an array and subtracts elementwise; a Python int on the right is a
    [TypeError] (a list has no subtraction). *)
Definition list_minus (samples : list pynum) (violation_ratio : pynum)
    : res (list R) :=
  match violation_ratio with
  | PyInt _ => Raise TypeError
  | NpFloat x => Ok (map (fun s => num_val s - x) samples)
  end.

Definition get_bootstrap_estimates (scores_a scores_b : list R)
    (num_samples num_bootstrap_iterations : Z) (dt : R) (num_jobs : Z)
    (seed : option Z) : M (pynum * xreal * list pynum) :=
  violation_ratio <- compute_violation_ratio scores_a scores_b dt ;;
  let seeds := bootstrap_seeds seed num_bootstrap_iterations in
  samples <- Parallel num_jobs
               (map (_bootstrap_iter scores_a scores_b num_samples dt) seeds) ;;
  q <- lift (py_div (IZR (num_samples ^ 2)) (IZR (2 * num_samples))) ;;
  let const2 := sqrt q in
  deviations <- lift (list_minus samples violation_ratio) ;;
  let sigma_hat := np_std (map (fun d => const2 * d) deviations) in
  ret (violation_ratio, sigma_hat, samples).

(** ** [aso] *)

(** [scipy.stats.norm.ppf]: infinite at the ends of [0,1], [nan] outside. *)
Definition normal_ppf (p : R) : xreal :=
  if Req_dec_T p 1 then PInf
  else if Req_dec_T p 0 then NInf
  else if Rlt_dec 0 p then (if Rlt_dec p 1 then Fin (probit p) else NaN)
  else NaN.

Definition len (l : list R) : Z := Z.of_nat (length l).

(** Modelled from the spec: the decorator [score_conversion] of the module
    [deepsig.conversion], which wraps [aso] and [bf_aso] and is not part
    of this file's source.  The spec describes it as the adapter that
    normalizes the accepted representations into canonical numeric
    sequences; on a sequence of floats it changes nothing. *)
Definition score_conversion (scores : list R) : list R := scores.

Definition aso (scores_a scores_b : list R) (confidence_level : R)
    (num_samples num_bootstrap_iterations : Z) (dt : R) (num_jobs : Z)
    (seed : option Z) : M xreal :=
  let scores_a := score_conversion scores_a in
  let scores_b := score_conversion scores_b in
  py_assert ((0 <? len scores_a)%Z && (0 <? len scores_b)%Z) ;;;
  py_assert (0 <? num_samples)%Z ;;;
  py_assert (0 <? num_bootstrap_iterations)%Z ;;;
  py_assert (0 <? num_jobs)%Z ;;;
  q <- lift (py_div (IZR (len scores_a * len scores_b))
                    (IZR (len scores_a + len scores_b))) ;;
  let const1 := sqrt q in
  est <- get_bootstrap_estimates scores_a scores_b num_samples
           num_bootstrap_iterations dt num_jobs seed ;;
  let '(violation_ratio, sigma_hat, _) := est in
  let min_epsilon :=
    py_min
      (py_max
         (xsub (Fin (num_val violation_ratio))
               (xmul (xmul (xdiv (Fin 1) (Fin const1)) sigma_hat)
                     (normal_ppf confidence_level)))
         (Fin 0))
      (Fin 1) in
  ret min_epsilon.

(** ** [multi_aso] *)

Definition matrix : Type := list (list xreal).

(** [np.eye(n)] *)
Definition np_eye (n : nat) : matrix :=
  map (fun i => map (fun j => if Nat.eqb i j then Fin 1 else Fin 0) (seq 0 n))
      (seq 0 n).

(** [m[i, j]] and [m[i, j] = v] for indices that are not negative. *)
Definition mat_get (m : matrix) (i j : nat) : res xreal :=
  match nth_error m i with
  | None => Raise IndexError
  | Some row =>
      match nth_error row j with
      | None => Raise IndexError
      | Some v => Ok v
      end
  end.

Definition mat_set (m : matrix) (i j : nat) (v : xreal) : res matrix :=
  match nth_error m i with
  | None => Raise IndexError
  | Some row =>
      match nth_error row j with
      | None => Raise IndexError
      | Some _ => Ok (list_set m i (list_set row j v))
      end
  end.

(** [_get_num_models] on a nested Python list (the inspection of
    [scores[0]] raises on an empty list). *)
Definition _get_num_models (scores : list (list R)) : res nat :=
  match scores with
  | [] => Raise IndexError
  | _ => Ok (length scores)
  end.

Fixpoint for_M {S A} (body : S -> A -> M S) (l : list A) (s : S) : M S :=
  match l with
  | [] => ret s
  | x :: l' => s' <- body s x ;; for_M body l' s'
  end.

(** [enumerate(indices[(i + 1):])] for [indices = range(num_models)]: the
    counter starts at 0, the key at [i + 1]. *)
Definition enumerate_from (num_models i : nat) : list (nat * nat) :=
  combine (seq 0 (num_models - (i + 1))) (seq (i + 1) (num_models - (i + 1))).

(** The body of the inner loop of [multi_aso]. *)
Definition multi_aso_body (scores : list (list R)) (confidence_level : R)
    (use_symmetry : bool) (num_samples num_bootstrap_iterations : Z) (dt : R)
    (num_jobs : Z) (seed : option Z) (i : nat) (eps_min : matrix)
    (jk : nat * nat) : M matrix :=
  let (j, key_j) := jk in
  scores_a <- lift (py_index scores (Z.of_nat i)) ;;
  scores_b <- lift (py_index scores (Z.of_nat key_j)) ;;
  e <- aso scores_a scores_b confidence_level num_samples
         num_bootstrap_iterations dt num_jobs seed ;;
  eps_min <- lift (mat_set eps_min i j e) ;;
  if use_symmetry then
    v <- lift (mat_get eps_min i j) ;;
    lift (mat_set eps_min j i v)
  else
    e' <- aso scores_b scores_a confidence_level num_samples
            num_bootstrap_iterations dt num_jobs seed ;;
    lift (mat_set eps_min i j e').

(** [multi_aso] on a nested list of scores, returning the array. *)
Definition multi_aso (scores : list (list R)) (confidence_level : R)
    (use_bonferroni use_symmetry : bool)
    (num_samples num_bootstrap_iterations : Z) (dt : R) (num_jobs : Z)
    (seed : option Z) : M matrix :=
  num_models <- lift (_get_num_models scores) ;;
  let num_comparisons := INR num_models * (INR num_models - 1) / 2 in
  let eps_min := np_eye num_models in
  confidence_level <-
    (if use_bonferroni then lift (py_div confidence_level num_comparisons)
     else ret confidence_level) ;;
  for_M (fun eps_min i =>
           for_M (multi_aso_body scores confidence_level use_symmetry
                    num_samples num_bootstrap_iterations dt num_jobs seed i)
                 (enumerate_from num_models i) eps_min)
        (seq 0 num_models) eps_min.

End Bootstrap.

(** ** [normal_inverse_gamma_cdf] and [bf_aso] *)

(** numpy's and scipy's elementary functions on floats. *)
Definition xexp (a : xreal) : xreal :=
  match a with
  | Fin x => Fin (exp x)
  | PInf => PInf
  | NInf => Fin 0
  | NaN => NaN
  end.

Definition xlog (a : xreal) : xreal :=
  match a with
  | Fin x => if Rlt_dec 0 x then Fin (ln x)
             else if Req_dec_T x 0 then NInf else NaN
  | PInf => PInf
  | NInf => NaN
  | NaN => NaN
  end.

Definition xsqrt (a : xreal) : xreal :=
  match a with
  | Fin x => if Rlt_dec x 0 then NaN else Fin (sqrt x)
  | PInf => PInf
  | NInf => NaN
  | NaN => NaN
  end.

Definition np_isinf (a : xreal) : bool :=
  match a with
  | PInf | NInf => true
  | _ => false
  end.

(** [sys.maxsize] on a 64-bit platform *)
Definition sys_maxsize : R := IZR (2 ^ 63 - 1).

Section Bayes.
Context {E : Externals}.

Definition xerf (a : xreal) : xreal :=
  match a with
  | Fin x => Fin (erf x)
  | PInf => Fin 1
  | NInf => Fin (-1)
  | NaN => NaN
  end.

Definition xgamma (a : xreal) : xreal :=
  match a with
  | Fin x => gamma x
  | PInf => PInf
  | NInf => NaN
  | NaN => NaN
  end.

(** [a ** b] *)
Definition xpow (a b : xreal) : xreal :=
  match a, b with
  | Fin x, Fin y => if Rlt_dec 0 x then Fin (Rpower x y) else power_special a b
  | _, _ => power_special a b
  end.

(** [normal_inverse_gamma_cdf], on numpy floats as [bf_aso] calls it. *)
Definition normal_inverse_gamma_cdf (x var loc scale alpha beta : xreal) : xreal :=
  let eps := Fin 1e-6 in
  let eps_var := xadd var eps in
  let num_term :=
    xadd (xexp (xdiv (xneg beta) eps_var)) (xpow (xdiv beta eps_var) alpha) in
  let num_term := if np_isinf num_term then Fin sys_maxsize else num_term in
  let numerator :=
    xadd num_term
         (xerf (xadd (xdiv (xmul (xsqrt scale) (xsub x loc))
                           (xadd (xsqrt (xmul (Fin 2) var)) eps))
                     (Fin 1))) in
  let denominator := xadd (xmul (xmul (Fin 2) var) (xgamma alpha)) eps in
  let joint_prob := xexp (xsub (xlog numerator) (xlog denominator)) in
  joint_prob.

(** The dictionary [prior_kwargs]. *)
Record prior : Type := mkPrior {
  prior_loc : R;
  prior_scale : R;
  prior_alpha : R;
  prior_beta : R
}.

(** The default value of [prior_kwargs]. *)
Definition default_prior : prior := mkPrior 0.5 0.5 3 1.

(** The parameters of the posterior, as [bf_aso] derives them from the
    bootstrap samples. *)
Record posterior : Type := mkPosterior {
  posterior_loc : xreal;
  posterior_scale : R;
  posterior_alpha : R;
  posterior_beta : R
}.

Definition posterior_of (pr : prior) (N : Z) (samples : list R) : res posterior :=
  let sample_mean := mean_list samples in
  let loc :=
    xdiv (Fin (prior_scale pr * prior_loc pr + IZR N * sample_mean))
         (Fin (prior_scale pr + IZR N)) in
  let scale := prior_scale pr + IZR N in
  let alpha := prior_alpha pr + IZR N / 2 in
  rbind (py_div (IZR N * prior_scale pr) (prior_scale pr + IZR N)) (fun q =>
    Ok (mkPosterior loc scale alpha
          (prior_beta pr
           + 0.5 * sum_list (map (fun s => (s - sample_mean) ^ 2) samples)
           + q * (sample_mean - prior_loc pr) ^ 2 / 2))).

(** The two values of the cumulative distribution function that [bf_aso]
    combines. *)
Definition cdf_posterior (eps_min_threshold : R) (var : xreal) (po : posterior) : xreal :=
  normal_inverse_gamma_cdf (Fin eps_min_threshold) var (posterior_loc po)
    (Fin (posterior_scale po)) (Fin (posterior_alpha po)) (Fin (posterior_beta po)).

Definition cdf_prior (eps_min_threshold : R) (var : xreal) (pr : prior) : xreal :=
  normal_inverse_gamma_cdf (Fin eps_min_threshold) var (Fin (prior_loc pr))
    (Fin (prior_scale pr)) (Fin (prior_alpha pr)) (Fin (prior_beta pr)).

(** The last lines of [bf_aso]: the Bayes factor from the two values. *)
Definition bayes_factor (post pri : xreal) : xreal :=
  let numerator := xsub (Fin 1) post in
  let numerator := xmul numerator pri in
  let denominator := post in
  let denominator := xmul denominator (xsub (Fin 1) pri) in
  let eps := Fin 1e-6 in
  xexp (xsub (xlog (xadd numerator eps)) (xlog (xadd denominator eps))).

Definition bf_aso (scores_a scores_b : list R) (eps_min_threshold : R)
    (prior_kwargs : prior) (num_bootstrap_samples num_bootstrap_iterations : Z)
    (dt : R) (num_jobs : Z) : M xreal :=
  let scores_a := score_conversion scores_a in
  let scores_b := score_conversion scores_b in
  py_assert ((0 <? len scores_a)%Z && (0 <? len scores_b)%Z) ;;;
  py_assert (0 <? num_bootstrap_samples)%Z ;;;
  py_assert (0 <? num_bootstrap_iterations)%Z ;;;
  py_assert (0 <? num_jobs)%Z ;;;
  est <- get_bootstrap_estimates scores_a scores_b num_bootstrap_samples
           num_bootstrap_iterations dt num_jobs None ;;
  let '(_, sigma_hat, samples) := est in
  q <- lift (py_div (IZR (len scores_b)) (IZR (len scores_a * len scores_b))) ;;
  let const := sqrt (IZR (len scores_a) + q) in
  let var := xmul (Fin const) sigma_hat in
  let N := (len scores_a + len scores_b)%Z in
  po <- lift (posterior_of prior_kwargs N (map num_val samples)) ;;
  let bf :=
    bayes_factor (cdf_posterior eps_min_threshold var po)
                 (cdf_prior eps_min_threshold var prior_kwargs) in
  ret bf.

End Bayes.

(** ** Notions the properties are stated with *)

(** [clamp(x, lo, hi)] on integers. *)
Definition clamp (x lo hi : Z) : Z := Z.min hi (Z.max lo x).

(** The position in the sorted sample that [_quantile_function] reads,
    and the value it finds there. *)
Definition quantile_index (scores : list R) (p : R) : Z :=
  clamp (Zceil (IZR (len scores) * p) - 1) 0 (len scores - 1).

Definition quantile (scores : list R) (p : R) : R :=
  nth (Z.to_nat (quantile_index scores p)) (np_sort scores) 0.

(** The grid [p = 0, dt, 2 * dt, ...] of the integration loop and the two
    sums the loop accumulates over it. *)
Definition grid_points (dt : R) : list R :=
  map (fun k => INR k * dt) (seq 0 (Z.to_nat (Zceil (1 / dt)))).

Definition quantile_diff (scores_a scores_b : list R) (p : R) : R :=
  quantile scores_b p - quantile scores_a p.

Definition wasserstein_sum (scores_a scores_b : list R) (dt : R) (grid : list R) : R :=
  sum_list (map (fun p => quantile_diff scores_a scores_b p ^ 2 * dt) grid).

Definition violation_sum (scores_a scores_b : list R) (dt : R) (grid : list R) : R :=
  sum_list (map (fun p => py_maxR (quantile_diff scores_a scores_b p) 0 ^ 2 * dt) grid).

(** The quotient of the two sums, and the value
    [compute_violation_ratio] returns on non-empty samples. *)
Definition ratio_of (scores_a scores_b : list R) (dt : R) : R :=
  violation_sum scores_a scores_b dt (grid_points dt)
  / wasserstein_sum scores_a scores_b dt (grid_points dt).

Definition violation_ratio_value (scores_a scores_b : list R) (dt : R) : pynum :=
  let W := wasserstein_sum scores_a scores_b dt (grid_points dt) in
  if Req_dec_T W 0 then PyInt 0 else NpFloat (ratio_of scores_a scores_b dt).

(** Inverse-transform resampling: the quantile function over an array of
    probabilities. *)
Definition resample (scores : list R) (us : list R) : list R :=
  map (quantile scores) us.

Section Notions.
Context {E : Externals}.

(** The bootstrap sample that one iteration computes when the generator
    is in state [g] at its first draw. *)
Definition sample_from (scores_a scores_b : list R) (num_samples : Z) (dt : R)
    (g : G) : pynum :=
  let (ua, g1) := draw_uniform (Z.to_nat num_samples) g in
  let (ub, _) := draw_uniform (Z.to_nat num_samples) g1 in
  violation_ratio_value (resample scores_a ua) (resample scores_b ub) dt.

(** The constant [const2] and the value of [sigma_hat] for given samples. *)
Definition const2_of (num_samples : Z) : R :=
  sqrt (IZR (num_samples ^ 2) / IZR (2 * num_samples)).

Definition sigma_of (num_samples : Z) (violation_ratio : R) (samples : list pynum) : xreal :=
  np_std (map (fun d => const2_of num_samples * d)
              (map (fun s => num_val s - violation_ratio) samples)).

(** A computation that never raises, whatever the world it starts from,
    and whose result satisfies [P]. *)
Definition always_ok {A} (m : M A) (P : A -> Prop) : Prop :=
  forall w, exists a w', m w = (Ok a, w') /\ P a.

(** A computation that only adds to the log of the world. *)
Definition appends {A} (m : M A) : Prop :=
  forall w r w', m w = (r, w') -> exists l, events w' = events w ++ l.

(** What one iteration started with [seed] may return: the sample computed
    from some state of the generator, which is the state [seed] derives
    when there is a seed. *)
Definition iteration_result (scores_a scores_b : list R) (num_samples : Z)
    (dt : R) (seed : option Z) (v : pynum) : Prop :=
  exists g, v = sample_from scores_a scores_b num_samples dt g /\
            forall s, seed = Some s -> g = seed_state s.

End Notions.

(** [const1] of [aso]. *)
Definition const1_of (scores_a scores_b : list R) : R :=
  sqrt (IZR (len scores_a * len scores_b) / IZR (len scores_a + len scores_b)).

(** The value [aso] returns from the estimates of the bootstrap. *)
Definition min_epsilon_of {E : Externals} (scores_a scores_b : list R)
    (confidence_level : R) (violation_ratio : R) (sigma_hat : xreal) : xreal :=
  py_min
    (py_max
       (xsub (Fin violation_ratio)
             (xmul (xmul (xdiv (Fin 1) (Fin (const1_of scores_a scores_b))) sigma_hat)
                   (normal_ppf confidence_level)))
       (Fin 0))
    (Fin 1).

(** ** An instance of the imported functions

    The properties below hold for every instance of [Externals].  To run
    the model on concrete arguments one instance is fixed here: a counter
    as random generator, and constant functions for [probit], [erf] and
    [gamma]. *)
Definition example_externals : Externals :=
  {| G := nat;
     seed_state := Z.to_nat;
     next_uniform := fun g => (/ (INR g + 2), S g);
     probit := fun _ => 0;
     erf := fun _ => 0;
     gamma := fun _ => Fin 1;
     power_special := fun _ _ => NaN |}.

Definition example_world : @World example_externals :=
  @mkWorld example_externals 0%nat [] [].

(** A second world: another state of the generator, and a scheduler that
    does not pick the tasks in their order. *)
Definition other_world : @World example_externals :=
  @mkWorld example_externals 7%nat [2; 0; 1]%nat [].

(** Numbers of moderate size, between [-1e100] and [1e100].  The
    embedding computes with real numbers; float64 follows it only as long
    as nothing overflows: the square of a difference of two scores above
    about [1e154] is [inf], and a quotient of two [inf] is [nan].  The
    properties below whose conclusion depends on it are stated for
    moderate scores. *)
Definition moderate (l : list R) : Prop :=
  Forall (fun x => -1e100 <= x <= 1e100) l.

(** An [n] x [n] array. *)
Definition square (n : nat) (m : matrix) : Prop :=
  length m = n /\ Forall (fun row => length row = n) m.

(** ** [_progress_iter]

    The generator that [get_bootstrap_estimates] builds when [multi_aso]
    hands over a shared progress bar.  A generator object is in one of
    three states: not started, suspended at its [yield] (with the value
    of the local variable [current]), or finished.  The progress bar is
    the number of updates it has received. *)
Inductive progress_gen : Type :=
| GenNew
| GenSuspended (current : Z)
| GenDone.

(** [next(gen)] for [gen = _progress_iter(high, progress_bar)]: the body
    runs up to the next [yield]; the result is the value yielded, or
    [None] for [StopIteration]. *)
Definition progress_next (high : Z) (gen : progress_gen) (bar : Z)
    : option Z * progress_gen * Z :=
  match gen with
  | GenNew =>
      if (0 <? high)%Z then (Some 0%Z, GenSuspended 0, bar)
      else (None, GenDone, bar)
  | GenSuspended current =>
      let current := (current + 1)%Z in
      let bar := (bar + 1)%Z in
      if (current <? high)%Z then (Some current, GenSuspended current, bar)
      else (None, GenDone, bar)
  | GenDone => (None, GenDone, bar)
  end.

(** [zip(seeds, iters)] consumed to its end, with [iters] the generator:
    for every tuple [zip] asks [seeds] first, and stops without touching
    the generator when [seeds] is exhausted. *)
Fixpoint zip_progress {A} (high : Z) (seeds : list A) (gen : progress_gen)
    (bar : Z) : list (A * Z) * progress_gen * Z :=
  match seeds with
  | [] => ([], gen, bar)
  | s :: seeds' =>
      match progress_next high gen bar with
      | (Some k, gen', bar') =>
          let '(l, g, b) := zip_progress high seeds' gen' bar' in
          ((s, k) :: l, g, b)
      | (None, gen', bar') => ([], gen', bar')
      end
  end.

(** * Properties *)

(** ** Sorting *)

Lemma insert_perm (x : R) (l : list R) : Permutation (insert x l) (x :: l).
Proof.
  induction l as [|y l IH]; simpl.
  - apply Permutation_refl.
  - destruct (Rle_dec x y).
    + apply Permutation_refl.
    + apply perm_trans with (y :: x :: l).
      * now apply perm_skip.
      * apply perm_swap.
Qed.

Lemma np_sort_perm (l : list R) : Permutation (np_sort l) l.
Proof.
  induction l as [|x l IH]; simpl.
  - apply perm_nil.
  - apply perm_trans with (x :: np_sort l).
    + apply insert_perm.
    + now apply perm_skip.
Qed.

Lemma np_sort_length (l : list R) : length (np_sort l) = length l.
Proof. apply Permutation_length, np_sort_perm. Qed.

Lemma insert_sorted (x : R) (l : list R) :
  StronglySorted Rle l -> StronglySorted Rle (insert x l).
Proof.
  induction 1 as [|y l Hs IH Hall]; simpl.
  - constructor; constructor.
  - destruct (Rle_dec x y) as [Hxy|Hxy].
    + constructor.
      * now constructor.
      * constructor; [exact Hxy|].
        eapply Forall_impl; [|exact Hall].
        intros z Hz. lra.
    + constructor; [exact IH|].
      eapply Permutation_Forall.
      * apply Permutation_sym, insert_perm.
      * constructor; [lra | exact Hall].
Qed.

Lemma np_sort_sorted (l : list R) : StronglySorted Rle (np_sort l).
Proof.
  induction l as [|x l IH]; simpl.
  - constructor.
  - now apply insert_sorted.
Qed.

Lemma sorted_nth_le (l : list R) (d : R) :
  StronglySorted Rle l ->
  forall i j : nat, (i <= j)%nat -> (j < length l)%nat -> nth i l d <= nth j l d.
Proof.
  induction 1 as [|x l Hs IH Hall]; intros i j Hij Hj; simpl in Hj.
  - lia.
  - destruct i as [|i], j as [|j]; simpl.
    + lra.
    + rewrite Forall_forall in Hall. apply Hall, nth_In. lia.
    + lia.
    + apply IH; lia.
Qed.

(** ** Indexing *)

Lemma py_index_nth {A} (l : list A) (k : Z) (d : A) :
  (0 <= k < Z.of_nat (length l))%Z -> py_index l k = Ok (nth (Z.to_nat k) l d).
Proof.
  intros Hk. unfold py_index.
  destruct (Z.ltb_spec k 0); [lia|].
  destruct (Z.leb_spec 0 k); [|lia].
  destruct (Z.ltb_spec k (Z.of_nat (length l))); [|lia].
  simpl.
  destruct (nth_error l (Z.to_nat k)) eqn:Hn.
  - now rewrite (nth_error_nth _ _ d Hn).
  - apply nth_error_None in Hn. lia.
Qed.

Lemma py_index_empty {A} (k : Z) : py_index (@nil A) k = Raise IndexError.
Proof.
  unfold py_index.
  change (Z.of_nat (length (@nil A))) with 0%Z.
  destruct (Z.ltb_spec k 0) as [Hk|Hk].
  - destruct (Z.leb_spec 0 (0 + k)); [lia|reflexivity].
  - destruct (Z.leb_spec 0 k); [|lia].
    destruct (Z.ltb_spec k 0); [lia|reflexivity].
Qed.

(** ** The quantile function *)

Lemma len_pos (l : list R) : l <> [] -> (0 < len l)%Z.
Proof. destruct l; [congruence|]. intros _. unfold len. simpl length. lia. Qed.

Lemma quantile_index_range (scores : list R) (p : R) :
  scores <> [] -> (0 <= quantile_index scores p < len scores)%Z.
Proof.
  intros H. apply len_pos in H. unfold quantile_index, clamp. lia.
Qed.

Lemma quantile_function_ok (scores : list R) (p : R) :
  scores <> [] -> _quantile_function scores p = Ok (quantile scores p).
Proof.
  intros H. unfold _quantile_function.
  apply (py_index_nth (np_sort scores) _ 0).
  rewrite np_sort_length.
  apply (quantile_index_range scores p H).
Qed.

Lemma quantile_function_empty (p : R) :
  _quantile_function [] p = Raise IndexError.
Proof. unfold _quantile_function. simpl np_sort. apply py_index_empty. Qed.

Lemma quantile_index_mono (scores : list R) (p q : R) :
  p <= q -> (quantile_index scores p <= quantile_index scores q)%Z.
Proof.
  intros Hpq. unfold quantile_index, clamp.
  assert (H : (Zceil (IZR (len scores) * p) <= Zceil (IZR (len scores) * q))%Z).
  { apply Zceil_le. apply Rmult_le_compat_l; [|exact Hpq].
    apply IZR_le. unfold len. lia. }
  lia.
Qed.

Lemma quantile_mono (scores : list R) (p q : R) :
  scores <> [] -> p <= q -> quantile scores p <= quantile scores q.
Proof.
  intros Hne Hpq. unfold quantile.
  pose proof (quantile_index_range scores p Hne) as Hp.
  pose proof (quantile_index_range scores q Hne) as Hq.
  pose proof (quantile_index_mono scores p q Hpq) as Hm.
  apply sorted_nth_le.
  - apply np_sort_sorted.
  - lia.
  - rewrite np_sort_length. unfold len in Hq. lia.
Qed.

Lemma quantile_In (scores : list R) (p : R) :
  scores <> [] -> In (quantile scores p) scores.
Proof.
  intros Hne. unfold quantile.
  apply (Permutation_in _ (np_sort_perm scores)).
  apply nth_In. rewrite np_sort_length.
  pose proof (quantile_index_range scores p Hne) as Hp. unfold len in Hp. lia.
Qed.

Lemma quantile_index_1 (scores : list R) :
  scores <> [] -> quantile_index scores 1 = (len scores - 1)%Z.
Proof.
  intros Hne. apply len_pos in Hne. unfold quantile_index, clamp.
  rewrite Rmult_1_r.
  rewrite (Zceil_eq (len scores) (IZR (len scores))) by lra.
  lia.
Qed.

Lemma quantile_index_0 (scores : list R) :
  scores <> [] -> quantile_index scores 0 = 0%Z.
Proof.
  intros Hne. apply len_pos in Hne. unfold quantile_index, clamp.
  rewrite Rmult_0_r.
  rewrite (Zceil_eq 0 0) by lra.
  lia.
Qed.

Lemma In_sorted_nth (scores : list R) (x : R) :
  In x scores -> exists i, (i < length scores)%nat /\ nth i (np_sort scores) 0 = x.
Proof.
  intros Hin.
  apply (Permutation_in _ (Permutation_sym (np_sort_perm scores))) in Hin.
  destruct (In_nth _ _ 0 Hin) as [i [Hi Hx]].
  exists i. rewrite np_sort_length in Hi. now split.
Qed.

Lemma quantile_1_max (scores : list R) (x : R) :
  scores <> [] -> In x scores -> x <= quantile scores 1.
Proof.
  intros Hne Hin.
  destruct (In_sorted_nth scores x Hin) as [i [Hi Hx]].
  rewrite <- Hx. unfold quantile. rewrite (quantile_index_1 scores Hne).
  pose proof (len_pos scores Hne) as Hl. unfold len in *.
  apply sorted_nth_le.
  - apply np_sort_sorted.
  - lia.
  - rewrite np_sort_length. lia.
Qed.

Lemma quantile_0_min (scores : list R) (x : R) :
  scores <> [] -> In x scores -> quantile scores 0 <= x.
Proof.
  intros Hne Hin.
  destruct (In_sorted_nth scores x Hin) as [i [Hi Hx]].
  rewrite <- Hx. unfold quantile. rewrite (quantile_index_0 scores Hne).
  apply sorted_nth_le.
  - apply np_sort_sorted.
  - simpl. lia.
  - rewrite np_sort_length. exact Hi.
Qed.

(** C4.  On a non-empty sample the quantile function reads the ascending
    sort of the sample at position [clamp(ceil(n*p) - 1, 0, n - 1)]; it
    is non-decreasing in [p]; at [p = 1] it returns the maximum of the
    sample and at [p = 0] its minimum. *)
Theorem quantile_function_spec (scores : list R) (p q : R) :
  scores <> [] -> 0 <= p <= 1 -> 0 <= q <= 1 ->
  let n := len scores in
  let sorted := np_sort scores in
  (StronglySorted Rle sorted /\ Permutation sorted scores) /\
  _quantile_function scores p
    = Ok (nth (Z.to_nat (clamp (Zceil (IZR n * p) - 1) 0 (n - 1))) sorted 0) /\
  (p <= q ->
   exists x y, _quantile_function scores p = Ok x /\
               _quantile_function scores q = Ok y /\ x <= y) /\
  (exists m, _quantile_function scores 1 = Ok m /\ In m scores /\
             forall x, In x scores -> x <= m) /\
  (exists m, _quantile_function scores 0 = Ok m /\ In m scores /\
             forall x, In x scores -> m <= x).
Proof.
  intros Hne Hp Hq n sorted. repeat split.
  - apply np_sort_sorted.
  - apply np_sort_perm.
  - apply (quantile_function_ok scores p Hne).
  - intros Hpq. exists (quantile scores p), (quantile scores q).
    repeat split; try now apply quantile_function_ok.
    now apply quantile_mono.
  - exists (quantile scores 1). repeat split.
    + now apply quantile_function_ok.
    + now apply quantile_In.
    + intros x Hx. now apply quantile_1_max.
  - exists (quantile scores 0). repeat split.
    + now apply quantile_function_ok.
    + now apply quantile_In.
    + intros x Hx. now apply quantile_0_min.
Qed.

(** ** The integration loop *)

Lemma np_arange_grid (dt : R) : dt <> 0 -> np_arange 0 1 dt = Ok (grid_points dt).
Proof.
  intros Hdt. unfold np_arange, grid_points.
  destruct (Req_dec_T dt 0) as [H0|_]; [contradiction|].
  replace ((1 - 0) / dt) with (1 / dt) by (field; exact Hdt).
  f_equal. apply map_ext. intros k. ring.
Qed.

Lemma grid_points_range (dt : R) :
  0 < dt -> Forall (fun p => 0 <= p < 1) (grid_points dt).
Proof.
  intros Hdt. unfold grid_points. rewrite Forall_forall. intros p Hp.
  apply in_map_iff in Hp. destruct Hp as [k [Hk Hin]]. subst p.
  apply in_seq in Hin.
  pose proof (Zceil_bound (1 / dt)) as [Hlo Hhi].
  pose proof (pos_INR k) as Hk0.
  split; [apply Rmult_le_pos; lra|].
  assert (Hc : (0 < Zceil (1 / dt))%Z) by lia.
  assert (Hk1 : (Z.of_nat k <= Zceil (1 / dt) - 1)%Z) by lia.
  apply IZR_le in Hk1. rewrite <- INR_IZR_INZ, minus_IZR in Hk1.
  assert (Hlt : INR k < 1 / dt) by lra.
  apply (Rmult_lt_compat_r dt) in Hlt; [|exact Hdt].
  replace (1 / dt * dt) with 1 in Hlt by (field; lra).
  exact Hlt.
Qed.

Lemma grid_points_nonempty (dt : R) : 0 < dt -> grid_points dt <> [].
Proof.
  intros Hdt. unfold grid_points.
  pose proof (Zceil_bound (1 / dt)) as [Hlo Hhi].
  assert (H1 : 0 < 1 / dt) by (apply Rdiv_lt_0_compat; lra).
  assert (Hc : (0 < Zceil (1 / dt))%Z).
  { apply lt_IZR. lra. }
  destruct (Z.to_nat (Zceil (1 / dt))) eqn:Hn; [lia|].
  simpl. discriminate.
Qed.

Lemma sum_list_cons (x : R) (l : list R) : sum_list (x :: l) = x + sum_list l.
Proof. reflexivity. Qed.

Lemma violation_loop_ok (a b : list R) (dt : R) (grid : list R) :
  a <> [] -> b <> [] ->
  forall s v,
    for_res (violation_step a b dt) grid (s, v)
    = Ok (s + wasserstein_sum a b dt grid, v + violation_sum a b dt grid).
Proof.
  intros Ha Hb. unfold wasserstein_sum, violation_sum.
  induction grid as [|p grid IH]; intros s v; cbn [for_res map].
  - apply f_equal. unfold sum_list. simpl. apply f_equal2; ring.
  - unfold violation_step at 1.
    rewrite (quantile_function_ok b p Hb), (quantile_function_ok a p Ha).
    cbn [rbind fst snd for_res]. rewrite IH.
    apply f_equal. rewrite !sum_list_cons. unfold quantile_diff.
    apply f_equal2; ring.
Qed.

Lemma violation_integrals_ok (a b : list R) (dt : R) :
  a <> [] -> b <> [] -> dt <> 0 ->
  violation_integrals a b dt
  = Ok (wasserstein_sum a b dt (grid_points dt), violation_sum a b dt (grid_points dt)).
Proof.
  intros Ha Hb Hdt. unfold violation_integrals.
  rewrite (np_arange_grid dt Hdt). simpl.
  rewrite (violation_loop_ok a b dt _ Ha Hb). apply f_equal. apply f_equal2; ring.
Qed.

Section ViolationRatio.
Context {E : Externals}.

Lemma compute_violation_ratio_zero (a b : list R) (dt : R) (w : World) (iv : R) :
  violation_integrals a b dt = Ok (0, iv) ->
  compute_violation_ratio a b dt w
  = (Ok (PyInt 0),
     mkWorld (rng w) (sched w) (events w ++ [Warning zero_division_warning])).
Proof.
  intros H. unfold compute_violation_ratio, bind, lift. rewrite H. simpl.
  destruct (Req_dec_T 0 0) as [_|H0]; [reflexivity|contradiction].
Qed.

Lemma compute_violation_ratio_nonzero (a b : list R) (dt : R) (w : World) (sq iv : R) :
  violation_integrals a b dt = Ok (sq, iv) -> sq <> 0 ->
  compute_violation_ratio a b dt w = (Ok (NpFloat (iv / sq)), w).
Proof.
  intros H Hsq. unfold compute_violation_ratio, bind, lift. rewrite H. simpl.
  destruct (Req_dec_T sq 0) as [H0|_]; [contradiction|reflexivity].
Qed.

(** C5.  On non-empty samples and a positive step the loop ends with the
    two sums over the grid [0, dt, 2 * dt, ... < 1]; when the squared
    Wasserstein distance is 0 the function logs one warning and returns
    0 (the Python int), otherwise it returns the violation mass divided
    by that distance (a numpy float) and leaves the world as it was.  It
    raises in neither case. *)
Theorem compute_violation_ratio_spec (a b : list R) (dt : R) (w : World) :
  a <> [] -> b <> [] -> 0 < dt ->
  exists sq iv,
    violation_integrals a b dt = Ok (sq, iv) /\
    sq = wasserstein_sum a b dt (grid_points dt) /\
    iv = violation_sum a b dt (grid_points dt) /\
    Forall (fun p => 0 <= p < 1) (grid_points dt) /\
    (sq = 0 ->
     compute_violation_ratio a b dt w
     = (Ok (PyInt 0),
        mkWorld (rng w) (sched w)
          (events w ++ [Warning zero_division_warning]))) /\
    (sq <> 0 ->
     compute_violation_ratio a b dt w = (Ok (NpFloat (iv / sq)), w)).
Proof.
  intros Ha Hb Hdt.
  assert (Hdt0 : dt <> 0) by lra.
  pose proof (violation_integrals_ok a b dt Ha Hb Hdt0) as Hint.
  eexists. eexists. split; [exact Hint|].
  repeat split.
  - now apply grid_points_range.
  - intros Hz. eapply compute_violation_ratio_zero.
    rewrite Hint, Hz. reflexivity.
  - intros Hnz. now apply compute_violation_ratio_nonzero.
Qed.

End ViolationRatio.

(** ** Swapping the two samples *)

Lemma py_maxR_0 (d : R) : py_maxR d 0 = if Rlt_dec d 0 then 0 else d.
Proof. reflexivity. Qed.

Lemma py_maxR_split (d : R) : py_maxR d 0 ^ 2 + py_maxR (- d) 0 ^ 2 = d ^ 2.
Proof.
  rewrite !py_maxR_0.
  destruct (Rlt_dec d 0), (Rlt_dec (- d) 0); try lra; try ring.
  assert (d = 0) by lra. subst d. ring.
Qed.

Lemma quantile_diff_swap (a b : list R) (p : R) :
  quantile_diff b a p = - quantile_diff a b p.
Proof. unfold quantile_diff. ring. Qed.

Lemma wasserstein_sum_swap (a b : list R) (dt : R) (grid : list R) :
  wasserstein_sum b a dt grid = wasserstein_sum a b dt grid.
Proof.
  unfold wasserstein_sum. f_equal. apply map_ext. intros p.
  rewrite quantile_diff_swap. ring.
Qed.

Lemma violation_sum_swap (a b : list R) (dt : R) (grid : list R) :
  violation_sum a b dt grid + violation_sum b a dt grid = wasserstein_sum a b dt grid.
Proof.
  unfold violation_sum, wasserstein_sum.
  induction grid as [|p grid IH]; cbn [map].
  - unfold sum_list. simpl. ring.
  - rewrite !sum_list_cons. rewrite <- IH.
    rewrite (quantile_diff_swap a b p).
    rewrite <- (py_maxR_split (quantile_diff a b p)). ring.
Qed.

Section Symmetry.
Context {E : Externals}.

(** C10.  On non-empty samples and a positive step, when the squared
    Wasserstein distance that the loop accumulates is not 0, the
    violation ratio of (A, B) and that of (B, A) add up to 1. *)
Theorem violation_ratio_symmetry (a b : list R) (dt : R) (w : World) :
  a <> [] -> b <> [] -> 0 < dt ->
  exists sq iv,
    violation_integrals a b dt = Ok (sq, iv) /\
    (sq <> 0 ->
     exists x y,
       compute_violation_ratio a b dt w = (Ok (NpFloat x), w) /\
       compute_violation_ratio b a dt w = (Ok (NpFloat y), w) /\
       x + y = 1).
Proof.
  intros Ha Hb Hdt.
  assert (Hdt0 : dt <> 0) by lra.
  pose proof (violation_integrals_ok a b dt Ha Hb Hdt0) as Hab.
  pose proof (violation_integrals_ok b a dt Hb Ha Hdt0) as Hba.
  eexists. eexists. split; [exact Hab|].
  intros Hsq.
  exists (violation_sum a b dt (grid_points dt) / wasserstein_sum a b dt (grid_points dt)).
  exists (violation_sum b a dt (grid_points dt) / wasserstein_sum b a dt (grid_points dt)).
  repeat split.
  - now apply compute_violation_ratio_nonzero.
  - apply compute_violation_ratio_nonzero; [exact Hba|].
    now rewrite wasserstein_sum_swap.
  - rewrite (wasserstein_sum_swap a b).
    pose proof (violation_sum_swap a b dt (grid_points dt)) as Hsum.
    set (W := wasserstein_sum a b dt (grid_points dt)) in *.
    set (V1 := violation_sum a b dt (grid_points dt)) in *.
    set (V2 := violation_sum b a dt (grid_points dt)) in *.
    replace (V1 / W + V2 / W) with ((V1 + V2) / W) by (field; exact Hsq).
    rewrite Hsum. field. exact Hsq.
Qed.

End Symmetry.

(** ** The worker pool *)

Lemma length_list_set {A} (l : list A) (k : nat) (v : A) :
  length (list_set l k v) = length l.
Proof.
  revert k. induction l as [|x l IH]; intros [|k]; simpl; auto.
Qed.

Lemma nth_error_list_set_eq {A} (l : list A) (k : nat) (v : A) :
  (k < length l)%nat -> nth_error (list_set l k v) k = Some v.
Proof.
  revert k. induction l as [|x l IH]; intros k Hk; simpl in Hk; [lia|].
  destruct k as [|k]; simpl; [reflexivity|].
  apply IH. lia.
Qed.

Lemma nth_error_list_set_neq {A} (l : list A) (k q : nat) (v : A) :
  k <> q -> nth_error (list_set l k v) q = nth_error l q.
Proof.
  revert k q. induction l as [|x l IH]; intros [|k] [|q] Hkq; simpl; auto;
    congruence.
Qed.

Lemma remove_nth_length {A} (l : list A) (k : nat) (x : A) :
  nth_error l k = Some x -> S (length (remove_nth k l)) = length l.
Proof.
  revert k. induction l as [|y l IH]; intros [|k] H; simpl in *; try discriminate.
  - reflexivity.
  - f_equal. now apply IH.
Qed.

Lemma remove_nth_In {A} (l : list A) (k : nat) (y : A) :
  In y (remove_nth k l) -> In y l.
Proof.
  revert k. induction l as [|x l IH]; intros [|k] H; simpl in *; auto.
  destruct H as [H|H]; [now left|right; eauto].
Qed.

Lemma remove_nth_split {A} (l : list A) (k : nat) (x y : A) :
  nth_error l k = Some x -> In y l -> y = x \/ In y (remove_nth k l).
Proof.
  revert k. induction l as [|z l IH]; intros [|k] Hk Hin; simpl in *;
    try discriminate.
  - injection Hk as ->. destruct Hin; auto.
  - destruct Hin as [->|Hin]; [right; now left|].
    destruct (IH k Hk Hin); auto.
Qed.

Section Pool.
Context {E : Externals}.

Lemma next_choice_ok (n_jobs : Z) (w : World) :
  exists c w', next_choice n_jobs w = (Ok c, w').
Proof.
  unfold next_choice. destruct (n_jobs =? 1)%Z; [eauto|].
  destruct (sched w); eauto.
Qed.

(** The invariant of the pool: the tasks still pending will fill their
    slots with a result that satisfies [P], the other slots stay. *)
Lemma run_pool_ok {A} (P : nat -> A -> Prop) (n_jobs : Z) (fuel : nat) :
  forall (pending : list (nat * M A)) (slots : list (option A)) (w : World),
    length pending = fuel ->
    (forall i t, In (i, t) pending ->
                 always_ok t (P i) /\ (i < length slots)%nat) ->
    exists final w',
      run_pool n_jobs fuel pending slots w = (Ok final, w') /\
      length final = length slots /\
      forall q,
        (In q (map fst pending) ->
         exists a, nth_error final q = Some (Some a) /\ P q a) /\
        (~ In q (map fst pending) -> nth_error final q = nth_error slots q).
Proof.
  induction fuel as [|fuel IH]; intros pending slots w Hlen Htasks.
  - destruct pending; [|discriminate]. simpl.
    exists slots, w. repeat split; auto. intros [].
  - cbn [run_pool]. unfold bind at 1.
    destruct (next_choice_ok n_jobs w) as [c [w1 Hc]]. rewrite Hc.
    set (k := Nat.modulo c (length pending)).
    assert (Hk : (k < length pending)%nat).
    { apply Nat.mod_upper_bound. lia. }
    destruct (nth_error pending k) as [[i task]|] eqn:Hnth;
      [|apply nth_error_None in Hnth; lia].
    pose proof (nth_error_In _ _ Hnth) as Hin.
    destruct (Htasks i task Hin) as [Hok Hi].
    unfold bind. destruct (Hok w1) as [a [w2 [Hrun Pa]]]. rewrite Hrun.
    destruct (IH (remove_nth k pending) (list_set slots i (Some a)) w2)
      as [final [w' [Hfinal [Hlenf Hslots]]]].
    + pose proof (remove_nth_length _ _ _ Hnth). lia.
    + intros j t Hj. apply remove_nth_In in Hj.
      rewrite length_list_set. now apply Htasks.
    + exists final, w'. split; [exact Hfinal|].
      split; [now rewrite Hlenf, length_list_set|].
      intros q. destruct (Hslots q) as [Hq1 Hq2].
      destruct (in_dec Nat.eq_dec q (map fst (remove_nth k pending))) as [Hr|Hr].
      * split; [intros _; now apply Hq1|].
        intros Hn. exfalso. apply Hn.
        apply in_map_iff in Hr. destruct Hr as [[j t] [Hfst Hjt]].
        apply remove_nth_In in Hjt. apply in_map_iff. now exists (j, t).
      * rewrite (Hq2 Hr). destruct (Nat.eq_dec i q) as [->|Hiq].
        -- split.
           ++ intros _. exists a. split; [|exact Pa].
              now apply nth_error_list_set_eq.
           ++ intros Hn. exfalso. apply Hn. apply in_map_iff. now exists (q, task).
        -- rewrite (nth_error_list_set_neq _ _ _ _ Hiq). split; [|reflexivity].
           intros Hq. exfalso. apply Hr.
           apply in_map_iff in Hq. destruct Hq as [[j t] [Hfst Hjt]].
           simpl in Hfst. subst j.
           destruct (remove_nth_split _ _ _ _ Hnth Hjt) as [Heq|Hrem].
           ++ congruence.
           ++ apply in_map_iff. now exists (q, t).
Qed.

End Pool.

Lemma combine_seq_In {A} (l : list A) (off i : nat) (t : A) :
  In (i, t) (combine (seq off (length l)) l) ->
  (off <= i)%nat /\ nth_error l (i - off) = Some t.
Proof.
  revert off. induction l as [|x l IH]; intros off H; simpl in H; [contradiction|].
  destruct H as [H|H].
  - injection H as -> ->. split; [lia|]. now rewrite Nat.sub_diag.
  - destruct (IH _ H) as [Hle Hn]. split; [lia|].
    replace (i - off)%nat with (S (i - S off)) by lia. exact Hn.
Qed.

Lemma combine_seq_fst {A} (l : list A) (off : nat) :
  map fst (combine (seq off (length l)) l) = seq off (length l).
Proof.
  revert off. induction l as [|x l IH]; intros off; simpl; [reflexivity|].
  now rewrite IH.
Qed.

Lemma filled_Forall2 {X A} (Q : X -> A -> Prop) (xs : list X) :
  forall final : list (option A),
    length final = length xs ->
    (forall q x, nth_error xs q = Some x ->
                 exists a, nth_error final q = Some (Some a) /\ Q x a) ->
    Forall2 Q xs (filled final).
Proof.
  induction xs as [|x xs IH]; intros [|s final] Hlen H; simpl in Hlen;
    try discriminate.
  - constructor.
  - destruct (H O x eq_refl) as [a [Ha Qa]]. simpl in Ha.
    injection Ha as ->. unfold filled. simpl. constructor; [exact Qa|].
    apply IH; [lia|]. intros q y Hq. apply (H (S q) y Hq).
Qed.

Section ParallelMap.
Context {E : Externals}.

(** [Parallel] over tasks that never raise: every task has run, and the
    results come back in the order of the tasks, whatever the number of
    jobs and whatever the scheduler decided. *)
Lemma Parallel_map_ok {X A} (Q : X -> A -> Prop) (n_jobs : Z) (g : X -> M A)
    (xs : list X) (w : World) :
  n_jobs <> 0%Z ->
  (forall x, In x xs -> always_ok (g x) (Q x)) ->
  exists l w', Parallel n_jobs (map g xs) w = (Ok l, w') /\ Forall2 Q xs l.
Proof.
  intros Hj Hg. unfold Parallel.
  destruct (Z.eqb_spec n_jobs 0) as [H0|_]; [contradiction|].
  unfold bind.
  set (tasks := map g xs).
  destruct (run_pool_ok
              (fun i a => forall x, nth_error xs i = Some x -> Q x a)
              n_jobs (length tasks)
              (combine (seq 0 (length tasks)) tasks)
              (repeat None (length tasks)) w)
    as [final [w' [Hrun [Hlen Hslots]]]].
  - rewrite length_combine, length_seq. lia.
  - intros i t Hin. apply combine_seq_In in Hin. destruct Hin as [_ Hn].
    rewrite Nat.sub_0_r in Hn. split.
    + unfold tasks in Hn. rewrite nth_error_map in Hn.
      destruct (nth_error xs i) as [x|] eqn:Hx; [|discriminate].
      simpl in Hn. injection Hn as <-.
      intros w0. destruct (Hg x (nth_error_In _ _ Hx) w0) as [a [w1 [Hr Qa]]].
      exists a, w1. split; [exact Hr|].
      intros y Hy. now injection Hy as <-.
    + rewrite repeat_length. apply nth_error_Some. congruence.
  - rewrite Hrun. exists (filled final), w'. split; [reflexivity|].
    apply filled_Forall2.
    + rewrite Hlen, repeat_length. unfold tasks. apply length_map.
    + intros q x Hq. destruct (Hslots q) as [Hin _].
      destruct Hin as [a [Ha Qa]].
      * rewrite combine_seq_fst. apply in_seq. split; [lia|]. simpl.
        unfold tasks. rewrite length_map. apply nth_error_Some. congruence.
      * exists a. split; [exact Ha|]. now apply Qa.
Qed.

End ParallelMap.

(** ** One bootstrap iteration *)

Lemma map_res_ok {A B} (f : A -> res B) (g : A -> B) (l : list A) :
  (forall a, f a = Ok (g a)) -> map_res f l = Ok (map g l).
Proof.
  intros H. induction l as [|a l IH]; simpl; [reflexivity|].
  now rewrite H, IH.
Qed.

Lemma get_quantile_function_ok (scores us : list R) :
  scores <> [] -> us <> [] ->
  get_quantile_function scores us = Ok (resample scores us).
Proof.
  intros Hs Hu. unfold get_quantile_function, np_vectorize.
  destruct us as [|u us]; [contradiction|].
  apply map_res_ok. intros p. now apply quantile_function_ok.
Qed.

Section Iteration.
Context {E : Externals}.

Lemma draw_uniform_length (n : nat) (g : G) :
  length (fst (draw_uniform n g)) = n.
Proof.
  revert g. induction n as [|n IH]; intros g; simpl; [reflexivity|].
  destruct (next_uniform g) as [u g1].
  specialize (IH g1). destruct (draw_uniform n g1) as [us g2].
  simpl in *. now rewrite IH.
Qed.

Lemma compute_violation_ratio_value (a b : list R) (dt : R) (w : World) :
  a <> [] -> b <> [] -> dt <> 0 ->
  exists w', compute_violation_ratio a b dt w = (Ok (violation_ratio_value a b dt), w').
Proof.
  intros Ha Hb Hdt.
  pose proof (violation_integrals_ok a b dt Ha Hb Hdt) as Hint.
  unfold violation_ratio_value.
  destruct (Req_dec_T (wasserstein_sum a b dt (grid_points dt)) 0) as [Hz|Hnz].
  - eexists. eapply compute_violation_ratio_zero. rewrite Hint, Hz. reflexivity.
  - eexists. now apply compute_violation_ratio_nonzero.
Qed.

Lemma resample_nonempty (scores us : list R) : us <> [] -> resample scores us <> [].
Proof. destruct us; [congruence|discriminate]. Qed.

Lemma bootstrap_iter_ok (a b : list R) (num_samples : Z) (dt : R)
    (seed : option Z) (w : World) :
  a <> [] -> b <> [] -> (0 < num_samples)%Z -> dt <> 0 ->
  exists w',
    _bootstrap_iter a b num_samples dt seed w
    = (Ok (sample_from a b num_samples dt
             (match seed with Some s => seed_state s | None => rng w end)), w').
Proof.
  intros Ha Hb Hn Hdt.
  unfold _bootstrap_iter, sample_from.
  set (g := match seed with Some s => seed_state s | None => rng w end).
  unfold bind at 1. unfold log_iter at 1.
  unfold bind at 1.
  assert (Hseed : exists w1,
             (match seed with Some s => np_random_seed s | None => ret tt end)
               (mkWorld (rng w) (sched w) (events w ++ [BootstrapIter seed]))
             = (Ok tt, w1) /\ rng w1 = g).
  { destruct seed as [s|]; eexists; split; reflexivity. }
  destruct Hseed as [w1 [Hs Hg]]. rewrite Hs.
  unfold bind at 1. unfold np_random_uniform at 1.
  destruct (Z.ltb_spec num_samples 0) as [Hneg|_]; [lia|].
  rewrite Hg.
  pose proof (draw_uniform_length (Z.to_nat num_samples) g) as Hla.
  destruct (draw_uniform (Z.to_nat num_samples) g) as [ua g1]. simpl in Hla.
  assert (Hua : ua <> []) by (destruct ua; [simpl in Hla; lia|discriminate]).
  unfold bind at 1. unfold lift at 1.
  rewrite (get_quantile_function_ok a ua Ha Hua).
  unfold bind at 1. unfold np_random_uniform at 1.
  destruct (Z.ltb_spec num_samples 0) as [Hneg|_]; [lia|].
  cbn [rng].
  pose proof (draw_uniform_length (Z.to_nat num_samples) g1) as Hlb.
  destruct (draw_uniform (Z.to_nat num_samples) g1) as [ub g2]. simpl in Hlb.
  assert (Hub : ub <> []) by (destruct ub; [simpl in Hlb; lia|discriminate]).
  unfold bind at 1. unfold lift at 1.
  rewrite (get_quantile_function_ok b ub Hb Hub).
  apply compute_violation_ratio_value; auto using resample_nonempty.
Qed.

End Iteration.

(** ** The log of the bootstrap iterations *)

Section Log.
Context {E : Externals}.

Lemma appends_ret {A} (a : A) : appends (ret a).
Proof. intros w r w' H. injection H as _ <-. exists []. now rewrite app_nil_r. Qed.

Lemma appends_raise {A} (e : exn) : appends (@raise _ A e).
Proof. intros w r w' H. injection H as _ <-. exists []. now rewrite app_nil_r. Qed.

Lemma appends_lift {A} (x : res A) : appends (lift x).
Proof. intros w r w' H. injection H as _ <-. exists []. now rewrite app_nil_r. Qed.

Lemma appends_bind {A B} (m : M A) (f : A -> M B) :
  appends m -> (forall a, appends (f a)) -> appends (bind m f).
Proof.
  intros Hm Hf w r w' H. unfold bind in H.
  destruct (m w) as [[a|e] w1] eqn:Hmw.
  - destruct (Hm _ _ _ Hmw) as [l1 H1]. destruct (Hf a _ _ _ H) as [l2 H2].
    exists (l1 ++ l2). now rewrite H2, H1, app_assoc.
  - injection H as _ <-. exact (Hm _ _ _ Hmw).
Qed.

Lemma appends_warn (msg : string) : appends (warn msg).
Proof. intros w r w' H. injection H as _ <-. simpl. eauto. Qed.

Lemma appends_np_random_seed (s : Z) : appends (np_random_seed s).
Proof. intros w r w' H. injection H as _ <-. exists []. simpl. now rewrite app_nil_r. Qed.

Lemma appends_np_random_uniform (size : Z) : appends (np_random_uniform size).
Proof.
  unfold np_random_uniform. destruct (size <? 0)%Z; [apply appends_raise|].
  intros w r w' H. destruct (draw_uniform (Z.to_nat size) (rng w)) as [us g].
  injection H as _ <-. exists []. simpl. now rewrite app_nil_r.
Qed.

Lemma appends_compute_violation_ratio (a b : list R) (dt : R) :
  appends (compute_violation_ratio a b dt).
Proof.
  unfold compute_violation_ratio. apply appends_bind; [apply appends_lift|].
  intros acc. destruct (Req_dec_T (fst acc) 0).
  - apply appends_bind; [apply appends_warn|]. intros _. apply appends_ret.
  - apply appends_ret.
Qed.

(** Every bootstrap iteration that starts leaves its entry in the log,
    whether it ends with a sample or with an exception. *)
Lemma bootstrap_iter_logged (a b : list R) (num_samples : Z) (dt : R)
    (seed : option Z) (w : World) (r : res pynum) (w' : World) :
  _bootstrap_iter a b num_samples dt seed w = (r, w') ->
  exists l, events w' = events w ++ BootstrapIter seed :: l.
Proof.
  unfold _bootstrap_iter. unfold bind at 1. unfold log_iter at 1.
  intros H.
  match type of H with
  | ?m ?w1 = _ => assert (Happ : appends m)
  end.
  { apply appends_bind.
    - destruct seed; [apply appends_np_random_seed|apply appends_ret].
    - intros _. apply appends_bind; [apply appends_np_random_uniform|].
      intros ua. apply appends_bind; [apply appends_lift|].
      intros sa. apply appends_bind; [apply appends_np_random_uniform|].
      intros ub. apply appends_bind; [apply appends_lift|].
      intros sb. apply appends_compute_violation_ratio. }
  destruct (Happ _ _ _ H) as [l Hl]. simpl in Hl.
  exists l. now rewrite Hl, <- app_assoc.
Qed.

End Log.

(** ** The bootstrap *)

Lemma Forall2_map_eq {X A} (h : X -> A) (xs : list X) (l : list A) :
  Forall2 (fun x a => a = h x) xs l -> l = map h xs.
Proof. induction 1; simpl; congruence. Qed.

Lemma Forall2_map_l {X Y A} (f : X -> Y) (Q : Y -> A -> Prop) (xs : list X) (l : list A) :
  Forall2 Q (map f xs) l -> Forall2 (fun x a => Q (f x) a) xs l.
Proof.
  revert l. induction xs as [|x xs IH]; intros l H; inversion H; subst; constructor; auto.
Qed.

Lemma violation_ratio_value_nonzero (a b : list R) (dt : R) :
  wasserstein_sum a b dt (grid_points dt) <> 0 ->
  violation_ratio_value a b dt = NpFloat (ratio_of a b dt).
Proof.
  intros H. unfold violation_ratio_value.
  destruct (Req_dec_T _ 0); [contradiction|reflexivity].
Qed.

Lemma violation_ratio_value_zero (a b : list R) (dt : R) :
  wasserstein_sum a b dt (grid_points dt) = 0 ->
  violation_ratio_value a b dt = PyInt 0.
Proof.
  intros H. unfold violation_ratio_value.
  destruct (Req_dec_T _ 0); [reflexivity|contradiction].
Qed.

Section BootstrapProperties.
Context {E : Externals}.

Lemma py_div_const2 (num_samples : Z) :
  (0 < num_samples)%Z ->
  py_div (IZR (num_samples ^ 2)) (IZR (2 * num_samples))
  = Ok (IZR (num_samples ^ 2) / IZR (2 * num_samples)).
Proof.
  intros Hn. unfold py_div.
  destruct (Req_dec_T (IZR (2 * num_samples)) 0) as [H0|_]; [|reflexivity].
  apply eq_IZR in H0. lia.
Qed.

(** The pool of the bootstrap: every iteration returns its sample. *)
Lemma bootstrap_pool_ok (a b : list R) (num_samples nb : Z) (dt : R)
    (num_jobs : Z) (seed : option Z) (w : World) :
  a <> [] -> b <> [] -> (0 < num_samples)%Z -> dt <> 0 -> num_jobs <> 0%Z ->
  exists samples w',
    Parallel num_jobs
      (map (_bootstrap_iter a b num_samples dt) (bootstrap_seeds seed nb)) w
    = (Ok samples, w') /\
    Forall2 (iteration_result a b num_samples dt) (bootstrap_seeds seed nb) samples.
Proof.
  intros Ha Hb Hn Hdt Hj.
  apply (Parallel_map_ok (iteration_result a b num_samples dt)); [exact Hj|].
  intros sd _ w0.
  destruct (bootstrap_iter_ok a b num_samples dt sd w0 Ha Hb Hn Hdt) as [w' Hit].
  eexists. exists w'. split; [exact Hit|].
  eexists. split; [reflexivity|].
  intros s ->. reflexivity.
Qed.

Lemma get_bootstrap_estimates_ok (a b : list R) (num_samples nb : Z) (dt : R)
    (num_jobs : Z) (seed : option Z) (w : World) :
  a <> [] -> b <> [] -> (0 < num_samples)%Z -> dt <> 0 -> num_jobs <> 0%Z ->
  wasserstein_sum a b dt (grid_points dt) <> 0 ->
  exists samples w',
    get_bootstrap_estimates a b num_samples nb dt num_jobs seed w
    = (Ok (NpFloat (ratio_of a b dt),
           sigma_of num_samples (ratio_of a b dt) samples,
           samples), w') /\
    Forall2 (iteration_result a b num_samples dt) (bootstrap_seeds seed nb) samples.
Proof.
  intros Ha Hb Hn Hdt Hj HW. unfold get_bootstrap_estimates.
  unfold bind at 1.
  destruct (compute_violation_ratio_value a b dt w Ha Hb Hdt) as [w1 Hv].
  rewrite Hv, (violation_ratio_value_nonzero a b dt HW). unfold bind at 1.
  destruct (bootstrap_pool_ok a b num_samples nb dt num_jobs seed w1 Ha Hb Hn Hdt Hj)
    as [samples [w2 [Hpar Hall]]].
  rewrite Hpar. unfold bind, lift. rewrite (py_div_const2 _ Hn).
  cbn [list_minus].
  exists samples, w2. split; [reflexivity|exact Hall].
Qed.

(** When the squared Wasserstein distance of the two samples is 0 the
    violation ratio is the int 0, and the subtraction that follows the
    pool raises. *)
Lemma get_bootstrap_estimates_degenerate (a b : list R) (num_samples nb : Z)
    (dt : R) (num_jobs : Z) (seed : option Z) (w : World) :
  a <> [] -> b <> [] -> (0 < num_samples)%Z -> dt <> 0 -> num_jobs <> 0%Z ->
  wasserstein_sum a b dt (grid_points dt) = 0 ->
  exists w',
    get_bootstrap_estimates a b num_samples nb dt num_jobs seed w
    = (Raise TypeError, w').
Proof.
  intros Ha Hb Hn Hdt Hj HW. unfold get_bootstrap_estimates.
  unfold bind at 1.
  destruct (compute_violation_ratio_value a b dt w Ha Hb Hdt) as [w1 Hv].
  rewrite Hv, (violation_ratio_value_zero a b dt HW). unfold bind at 1.
  destruct (bootstrap_pool_ok a b num_samples nb dt num_jobs seed w1 Ha Hb Hn Hdt Hj)
    as [samples [w2 [Hpar Hall]]].
  rewrite Hpar. unfold bind, lift. rewrite (py_div_const2 _ Hn).
  cbn [list_minus]. now exists w2.
Qed.

Lemma seeded_samples (a b : list R) (num_samples nb : Z) (dt : R) (s : Z)
    (samples : list pynum) :
  Forall2 (iteration_result a b num_samples dt) (bootstrap_seeds (Some s) nb) samples ->
  samples = map (fun offset => sample_from a b num_samples dt (seed_state (s + offset)))
                (offsets nb).
Proof.
  intros H. unfold bootstrap_seeds in H. apply Forall2_map_l in H.
  apply Forall2_map_eq. eapply Forall2_impl; [|exact H].
  intros offset v [g [Hv Hg]]. simpl in Hg. now rewrite (Hg _ eq_refl) in Hv.
Qed.

Lemma offsets_spec (nb : Z) :
  offsets nb = map (fun k => (Z.of_nat k + 1)%Z) (seq 0 (Z.to_nat nb)).
Proof.
  unfold offsets. rewrite <- seq_shift, map_map.
  apply map_ext. intros k. lia.
Qed.

Lemma seeded_pool (a b : list R) (num_samples nb : Z) (dt : R)
    (num_jobs : Z) (seed : Z) (w : World) :
  a <> [] -> b <> [] -> (0 < num_samples)%Z -> dt <> 0 -> num_jobs <> 0%Z ->
  exists w',
    Parallel num_jobs
      (map (_bootstrap_iter a b num_samples dt) (bootstrap_seeds (Some seed) nb)) w
    = (Ok (map (fun k => sample_from a b num_samples dt
                           (seed_state (seed + Z.of_nat k + 1)))
               (seq 0 (Z.to_nat nb))), w').
Proof.
  intros Ha Hb Hn Hdt Hj.
  destruct (bootstrap_pool_ok a b num_samples nb dt num_jobs (Some seed) w
              Ha Hb Hn Hdt Hj) as [samples [w' [Hpar Hall]]].
  exists w'. rewrite Hpar. do 2 f_equal.
  rewrite (seeded_samples _ _ _ _ _ _ _ Hall), offsets_spec, map_map.
  apply map_ext. intros k. do 2 f_equal. lia.
Qed.

(** C3.  With a seed, the pool of the bootstrap returns the same samples
    from any two worlds (any state of the shared generator, any decisions
    of the scheduler) and for any two numbers of jobs: the sample of
    iteration [k] is the one computed from the generator seeded with
    [seed + k + 1].  The two runs of [get_bootstrap_estimates] have the
    same outcome; when the squared Wasserstein distance of the samples is
    not 0 this outcome is the violation ratio, one [sigma_hat] and these
    samples. *)
Theorem bootstrap_deterministic (a b : list R) (num_samples nb : Z) (dt : R)
    (jobs1 jobs2 : Z) (seed : Z) (w1 w2 : World) :
  a <> [] -> b <> [] -> (0 < num_samples)%Z -> 0 < dt ->
  (1 <= jobs1)%Z -> (1 <= jobs2)%Z ->
  let tasks :=
    map (_bootstrap_iter a b num_samples dt) (bootstrap_seeds (Some seed) nb) in
  let samples :=
    map (fun k => sample_from a b num_samples dt
                    (seed_state (seed + Z.of_nat k + 1)))
        (seq 0 (Z.to_nat nb)) in
  (exists w1' w2',
     Parallel jobs1 tasks w1 = (Ok samples, w1') /\
     Parallel jobs2 tasks w2 = (Ok samples, w2')) /\
  fst (get_bootstrap_estimates a b num_samples nb dt jobs1 (Some seed) w1)
  = fst (get_bootstrap_estimates a b num_samples nb dt jobs2 (Some seed) w2) /\
  (wasserstein_sum a b dt (grid_points dt) <> 0 ->
   exists v sigma_hat w1' w2',
     get_bootstrap_estimates a b num_samples nb dt jobs1 (Some seed) w1
     = (Ok (NpFloat v, sigma_hat, samples), w1') /\
     get_bootstrap_estimates a b num_samples nb dt jobs2 (Some seed) w2
     = (Ok (NpFloat v, sigma_hat, samples), w2')).
Proof.
  intros Ha Hb Hn Hdt Hj1 Hj2 tasks samples.
  assert (Hdt0 : dt <> 0) by lra.
  assert (Hj1' : jobs1 <> 0%Z) by lia.
  assert (Hj2' : jobs2 <> 0%Z) by lia.
  assert (Hfull : wasserstein_sum a b dt (grid_points dt) <> 0 ->
            exists v sigma_hat w1' w2',
              get_bootstrap_estimates a b num_samples nb dt jobs1 (Some seed) w1
              = (Ok (NpFloat v, sigma_hat, samples), w1') /\
              get_bootstrap_estimates a b num_samples nb dt jobs2 (Some seed) w2
              = (Ok (NpFloat v, sigma_hat, samples), w2')).
  { intros HW.
    destruct (get_bootstrap_estimates_ok a b num_samples nb dt jobs1 (Some seed) w1
                Ha Hb Hn Hdt0 Hj1' HW) as [s1 [w1' [H1 F1]]].
    destruct (get_bootstrap_estimates_ok a b num_samples nb dt jobs2 (Some seed) w2
                Ha Hb Hn Hdt0 Hj2' HW) as [s2 [w2' [H2 F2]]].
    apply seeded_samples in F1. apply seeded_samples in F2.
    assert (Hs1 : s1 = samples).
    { rewrite F1. unfold samples. rewrite offsets_spec, map_map.
      apply map_ext. intros k. do 2 f_equal. lia. }
    assert (Hs2 : s2 = s1) by congruence.
    rewrite Hs2 in H2. rewrite Hs1 in H1, H2.
    eexists. eexists. exists w1', w2'. split; [exact H1|exact H2]. }
  split; [|split; [|exact Hfull]].
  - destruct (seeded_pool a b num_samples nb dt jobs1 seed w1 Ha Hb Hn Hdt0 Hj1')
      as [w1' H1].
    destruct (seeded_pool a b num_samples nb dt jobs2 seed w2 Ha Hb Hn Hdt0 Hj2')
      as [w2' H2].
    exists w1', w2'. split; [exact H1|exact H2].
  - destruct (Req_dec_T (wasserstein_sum a b dt (grid_points dt)) 0) as [HW|HW].
    + destruct (get_bootstrap_estimates_degenerate a b num_samples nb dt jobs1
                  (Some seed) w1 Ha Hb Hn Hdt0 Hj1' HW) as [w1' H1].
      destruct (get_bootstrap_estimates_degenerate a b num_samples nb dt jobs2
                  (Some seed) w2 Ha Hb Hn Hdt0 Hj2' HW) as [w2' H2].
      now rewrite H1, H2.
    + destruct (Hfull HW) as [v [sg [w1' [w2' [H1 H2]]]]].
      now rewrite H1, H2.
Qed.

End BootstrapProperties.

(** ** [aso] *)

Lemma clamp_fin (x : R) :
  py_min (py_max (Fin x) (Fin 0)) (Fin 1) = Fin (Rmin (Rmax x 0) 1).
Proof.
  unfold py_min, py_max, xlt, Rmin, Rmax.
  destruct (Rlt_dec x 0), (Rle_dec x 0); try lra;
    repeat match goal with
           | |- context [Rlt_dec ?a ?b] => destruct (Rlt_dec a b)
           | |- context [Rle_dec ?a ?b] => destruct (Rle_dec a b)
           end; try lra; try reflexivity; f_equal; lra.
Qed.

Lemma clamp_range (x : R) : 0 <= Rmin (Rmax x 0) 1 <= 1.
Proof.
  unfold Rmin, Rmax.
  destruct (Rle_dec x 0); destruct (Rle_dec _ 1); lra.
Qed.

Lemma const1_pos (a b : list R) : a <> [] -> b <> [] -> 0 < const1_of a b.
Proof.
  intros Ha Hb. apply len_pos in Ha, Hb. unfold const1_of.
  apply sqrt_lt_R0. apply Rdiv_lt_0_compat; apply IZR_lt; lia.
Qed.

Lemma mean_list_nonneg (l : list R) :
  Forall (fun x => 0 <= x) l -> 0 <= mean_list l.
Proof.
  intros H. unfold mean_list.
  assert (Hs : 0 <= sum_list l).
  { induction H; [unfold sum_list; simpl; lra|]. rewrite sum_list_cons. lra. }
  destruct l as [|x l].
  - simpl. unfold Rdiv. rewrite Rinv_0. lra.
  - apply Rmult_le_pos; [exact Hs|].
    apply Rlt_le, Rinv_0_lt_compat, lt_0_INR. simpl. lia.
Qed.

Lemma np_std_fin (l : list R) : l <> [] -> exists s, np_std l = Fin s /\ 0 <= s.
Proof.
  intros Hl. destruct l as [|x l]; [contradiction|].
  eexists. split; [reflexivity|]. apply sqrt_pos.
Qed.

Section AsoProperties.
Context {E : Externals}.

Lemma bootstrap_seeds_length (seed : option Z) (nb : Z) :
  length (bootstrap_seeds seed nb) = Z.to_nat nb.
Proof.
  unfold bootstrap_seeds, offsets. destruct seed.
  - now rewrite !length_map, length_seq.
  - apply repeat_length.
Qed.

Lemma aso_asserts_pass (a b : list R) (num_samples nb num_jobs : Z) :
  a <> [] -> b <> [] -> (0 < num_samples)%Z -> (0 < nb)%Z -> (1 <= num_jobs)%Z ->
  ((0 <? len a)%Z && (0 <? len b)%Z = true) /\
  (0 <? num_samples)%Z = true /\ (0 <? nb)%Z = true /\ (0 <? num_jobs)%Z = true.
Proof.
  intros Ha Hb Hn Hnb Hj. apply len_pos in Ha, Hb.
  repeat split; try apply andb_true_intro; try split; apply Z.ltb_lt; lia.
Qed.

Lemma py_div_const1 (a b : list R) :
  a <> [] -> b <> [] ->
  py_div (IZR (len a * len b)) (IZR (len a + len b))
  = Ok (IZR (len a * len b) / IZR (len a + len b)).
Proof.
  intros Ha Hb. apply len_pos in Ha, Hb. unfold py_div.
  destruct (Req_dec_T (IZR (len a + len b)) 0) as [H0|_]; [|reflexivity].
  apply eq_IZR in H0. lia.
Qed.

(** On valid arguments [aso] returns the clamped bound computed from the
    estimates of the bootstrap, and [sigma_hat] is a finite number that
    is not negative. *)
Lemma aso_ok (a b : list R) (cl : R) (num_samples nb : Z) (dt : R)
    (num_jobs : Z) (seed : option Z) (w : World) :
  a <> [] -> b <> [] -> (0 < num_samples)%Z -> (0 < nb)%Z -> 0 < dt ->
  (1 <= num_jobs)%Z -> wasserstein_sum a b dt (grid_points dt) <> 0 ->
  exists sigma samples w',
    get_bootstrap_estimates a b num_samples nb dt num_jobs seed w
    = (Ok (NpFloat (ratio_of a b dt), Fin sigma, samples), w') /\
    0 <= sigma /\
    Fin sigma = sigma_of num_samples (ratio_of a b dt) samples /\
    Forall2 (iteration_result a b num_samples dt) (bootstrap_seeds seed nb) samples /\
    aso a b cl num_samples nb dt num_jobs seed w
    = (Ok (min_epsilon_of a b cl (ratio_of a b dt) (Fin sigma)), w').
Proof.
  intros Ha Hb Hn Hnb Hdt Hj HW.
  destruct (get_bootstrap_estimates_ok a b num_samples nb dt num_jobs seed w)
    as [samples [w' [Hest Hall]]]; auto; try lra; try lia.
  assert (Hne : samples <> []).
  { apply Forall2_length in Hall. rewrite bootstrap_seeds_length in Hall.
    destruct samples; [simpl in Hall; lia|discriminate]. }
  destruct (np_std_fin
              (map (fun d => const2_of num_samples * d)
                   (map (fun s => num_val s - ratio_of a b dt) samples)))
    as [sigma [Hsig Hpos]].
  { destruct samples; [contradiction|discriminate]. }
  fold (sigma_of num_samples (ratio_of a b dt) samples) in Hsig.
  rewrite Hsig in Hest.
  exists sigma, samples, w'. repeat split; auto.
  unfold aso. cbv beta zeta delta [score_conversion].
  destruct (aso_asserts_pass a b num_samples nb num_jobs Ha Hb Hn Hnb Hj)
    as [H1 [H2 [H3 H4]]].
  rewrite H1, H2, H3, H4.
  unfold py_assert, bind, ret, lift.
  rewrite (py_div_const1 a b Ha Hb), Hest. reflexivity.
Qed.

End AsoProperties.

(** ** The bound at finite and infinite quantiles of the normal law *)

Section Bound.
Context {E : Externals}.

Lemma normal_ppf_inside (p : R) : 0 < p < 1 -> normal_ppf p = Fin (probit p).
Proof.
  intros [H0 H1]. unfold normal_ppf.
  destruct (Req_dec_T p 1); [lra|]. destruct (Req_dec_T p 0); [lra|].
  destruct (Rlt_dec 0 p); [|lra]. destruct (Rlt_dec p 1); [reflexivity|lra].
Qed.

Lemma normal_ppf_one : normal_ppf 1 = PInf.
Proof. unfold normal_ppf. destruct (Req_dec_T 1 1); [reflexivity|lra]. Qed.

Lemma xdiv_one_const1 (a b : list R) :
  a <> [] -> b <> [] ->
  xdiv (Fin 1) (Fin (const1_of a b)) = Fin (1 / const1_of a b).
Proof.
  intros Ha Hb. pose proof (const1_pos a b Ha Hb). simpl.
  destruct (Req_dec_T (const1_of a b) 0); [lra|reflexivity].
Qed.

Lemma min_epsilon_inside (a b : list R) (cl v sigma : R) :
  a <> [] -> b <> [] -> 0 < cl < 1 ->
  min_epsilon_of a b cl v (Fin sigma)
  = Fin (Rmin (Rmax (v - 1 / const1_of a b * sigma * probit cl) 0) 1).
Proof.
  intros Ha Hb Hcl. unfold min_epsilon_of.
  rewrite (xdiv_one_const1 a b Ha Hb), (normal_ppf_inside cl Hcl).
  cbn [xmul xsub xneg xadd]. rewrite clamp_fin. f_equal.
Qed.

Lemma min_epsilon_one_pos (a b : list R) (v sigma : R) :
  a <> [] -> b <> [] -> 0 < sigma ->
  min_epsilon_of a b 1 v (Fin sigma) = Fin 0.
Proof.
  intros Ha Hb Hs. unfold min_epsilon_of.
  rewrite (xdiv_one_const1 a b Ha Hb), normal_ppf_one.
  pose proof (const1_pos a b Ha Hb) as Hc.
  assert (Hpos : 0 < 1 / const1_of a b * sigma).
  { apply Rmult_lt_0_compat; [|exact Hs]. apply Rdiv_lt_0_compat; lra. }
  cbn [xmul]. unfold signed_inf.
  destruct (Rlt_dec 0 (1 / const1_of a b * sigma)); [|lra].
  unfold py_min, py_max, xlt. simpl.
  destruct (Rlt_dec 1 0); [lra|reflexivity].
Qed.

Lemma min_epsilon_one_zero (a b : list R) (v : R) :
  a <> [] -> b <> [] ->
  min_epsilon_of a b 1 v (Fin 0) = NaN.
Proof.
  intros Ha Hb. unfold min_epsilon_of.
  rewrite (xdiv_one_const1 a b Ha Hb), normal_ppf_one.
  cbn [xmul]. unfold signed_inf. rewrite Rmult_0_r.
  destruct (Rlt_dec 0 0); [lra|]. reflexivity.
Qed.

End Bound.

Section AsoTheorems.
Context {E : Externals}.

(** C8.  [aso] raises the assertion error (the spec's InvalidArgument)
    when a sample is empty, [num_samples <= 0],
    [num_bootstrap_iterations <= 0] or [num_jobs < 1], and it leaves the
    world as it found it: no number was drawn and nothing was logged, so
    no bootstrap iteration has started (an iteration that starts is in
    the log, [bootstrap_iter_logged]). *)
Theorem aso_invalid_argument (a b : list R) (cl : R) (num_samples nb : Z)
    (dt : R) (num_jobs : Z) (seed : option Z) (w : World) :
  a = [] \/ b = [] \/ (num_samples <= 0)%Z \/ (nb <= 0)%Z \/ (num_jobs < 1)%Z ->
  aso a b cl num_samples nb dt num_jobs seed w = (Raise AssertionError, w).
Proof.
  intros H. unfold aso, bind, py_assert, raise, ret.
  cbv beta zeta delta [score_conversion].
  destruct ((0 <? len a)%Z && (0 <? len b)%Z) eqn:Hab; [|reflexivity].
  destruct (Z.ltb_spec 0 num_samples) as [Hn|Hn]; [|reflexivity].
  destruct (Z.ltb_spec 0 nb) as [Hnb|Hnb]; [|reflexivity].
  destruct (Z.ltb_spec 0 num_jobs) as [Hj|Hj]; [|reflexivity].
  exfalso. apply andb_prop in Hab. destruct Hab as [Hla Hlb].
  apply Z.ltb_lt in Hla, Hlb.
  destruct H as [->|[->|[H|[H|H]]]]; try lia; unfold len in *; simpl in *; lia.
Qed.

End AsoTheorems.

(** ** Constant samples *)

Lemma quantile_const (c : R) (a : list R) (p : R) :
  Forall (eq c) a -> a <> [] -> quantile a p = c.
Proof.
  intros Hall Hne. rewrite Forall_forall in Hall.
  symmetry. apply Hall. now apply quantile_In.
Qed.

Lemma resample_const (c : R) (a us : list R) :
  Forall (eq c) a -> a <> [] -> Forall (eq c) (resample a us).
Proof.
  intros Hall Hne. unfold resample. rewrite Forall_map.
  rewrite Forall_forall. intros u _. symmetry. now apply quantile_const.
Qed.

Lemma sum_list_zeros (l : list R) : Forall (eq 0) l -> sum_list l = 0.
Proof.
  induction 1 as [|x l Hx _ IH]; [reflexivity|].
  rewrite sum_list_cons, IH, <- Hx. ring.
Qed.

Lemma sum_list_const_pos (c : R) (l : list R) :
  0 < c -> Forall (eq c) l -> l <> [] -> 0 < sum_list l.
Proof.
  intros Hc Hall Hne. induction Hall as [|x l Hx Hall IH]; [contradiction|].
  rewrite sum_list_cons. subst x. destruct l as [|y l].
  - unfold sum_list. simpl. lra.
  - assert (0 < sum_list (y :: l)) by (apply IH; discriminate). lra.
Qed.

Lemma np_std_zeros (l : list R) : l <> [] -> Forall (eq 0) l -> np_std l = Fin 0.
Proof.
  intros Hne Hall. destruct l as [|x l]; [contradiction|].
  unfold np_std. f_equal.
  assert (Hm : mean_list (x :: l) = 0).
  { unfold mean_list. rewrite (sum_list_zeros _ Hall). unfold Rdiv. ring. }
  rewrite Hm.
  assert (Hz : Forall (eq 0) (map (fun y => (y - 0) ^ 2) (x :: l))).
  { rewrite Forall_map. eapply Forall_impl; [|exact Hall].
    intros y <-. simpl. ring. }
  unfold mean_list at 1. rewrite (sum_list_zeros _ Hz).
  unfold Rdiv. rewrite Rmult_0_l. apply sqrt_0.
Qed.

(** When every score of A is [ca], every score of B is [cb] and
    [cb < ca], no quantile of B exceeds the quantile of A: the violation
    mass is 0 and the squared Wasserstein distance is not. *)
Lemma separated_sums (ca cb : R) (a b : list R) (dt : R) :
  Forall (eq ca) a -> Forall (eq cb) b -> a <> [] -> b <> [] ->
  cb < ca -> 0 < dt ->
  violation_sum a b dt (grid_points dt) = 0 /\
  wasserstein_sum a b dt (grid_points dt) <> 0.
Proof.
  intros Ha Hb Hna Hnb Hlt Hdt.
  assert (Hd : forall p, quantile_diff a b p = cb - ca).
  { intros p. unfold quantile_diff.
    now rewrite (quantile_const ca a p Ha Hna), (quantile_const cb b p Hb Hnb). }
  split.
  - unfold violation_sum. apply sum_list_zeros. rewrite Forall_map.
    rewrite Forall_forall. intros p _. rewrite Hd, py_maxR_0.
    destruct (Rlt_dec (cb - ca) 0); [ring|lra].
  - unfold wasserstein_sum.
    assert (Hpos : 0 < (cb - ca) ^ 2 * dt).
    { apply Rmult_lt_0_compat; [|exact Hdt]. nra. }
    apply Rgt_not_eq. apply Rlt_gt.
    apply (sum_list_const_pos ((cb - ca) ^ 2 * dt)); [exact Hpos| |].
    + rewrite Forall_map. rewrite Forall_forall. intros p _. now rewrite Hd.
    + pose proof (grid_points_nonempty dt Hdt).
      destruct (grid_points dt); [contradiction|discriminate].
Qed.

Lemma separated_ratio (ca cb : R) (a b : list R) (dt : R) :
  Forall (eq ca) a -> Forall (eq cb) b -> a <> [] -> b <> [] ->
  cb < ca -> 0 < dt ->
  ratio_of a b dt = 0.
Proof.
  intros Ha Hb Hna Hnb Hlt Hdt.
  destruct (separated_sums ca cb a b dt Ha Hb Hna Hnb Hlt Hdt) as [Hv Hw].
  unfold ratio_of. rewrite Hv. unfold Rdiv. ring.
Qed.

Lemma separated_value (ca cb : R) (a b : list R) (dt : R) :
  Forall (eq ca) a -> Forall (eq cb) b -> a <> [] -> b <> [] ->
  cb < ca -> 0 < dt ->
  violation_ratio_value a b dt = NpFloat 0.
Proof.
  intros Ha Hb Hna Hnb Hlt Hdt.
  destruct (separated_sums ca cb a b dt Ha Hb Hna Hnb Hlt Hdt) as [Hv Hw].
  rewrite (violation_ratio_value_nonzero a b dt Hw).
  now rewrite (separated_ratio ca cb a b dt Ha Hb Hna Hnb Hlt Hdt).
Qed.

Section Separated.
Context {E : Externals}.

Lemma separated_sample (ca cb : R) (a b : list R) (num_samples : Z) (dt : R) (g : G) :
  Forall (eq ca) a -> Forall (eq cb) b -> a <> [] -> b <> [] ->
  cb < ca -> 0 < dt -> (0 < num_samples)%Z ->
  sample_from a b num_samples dt g = NpFloat 0.
Proof.
  intros Ha Hb Hna Hnb Hlt Hdt Hn. unfold sample_from.
  pose proof (draw_uniform_length (Z.to_nat num_samples) g) as Hla.
  destruct (draw_uniform (Z.to_nat num_samples) g) as [ua g1]. simpl in Hla.
  pose proof (draw_uniform_length (Z.to_nat num_samples) g1) as Hlb.
  destruct (draw_uniform (Z.to_nat num_samples) g1) as [ub g2]. simpl in Hlb.
  apply (separated_value ca cb); auto using resample_const.
  - apply resample_nonempty. destruct ua; [simpl in Hla; lia|discriminate].
  - apply resample_nonempty. destruct ub; [simpl in Hlb; lia|discriminate].
Qed.

(** The estimates of the bootstrap and the result of [aso] on such
    samples: violation ratio 0 and [sigma_hat] 0, whatever is drawn. *)
Lemma separated_aso (ca cb : R) (a b : list R) (cl : R) (num_samples nb : Z)
    (dt : R) (num_jobs : Z) (seed : option Z) (w : World) :
  Forall (eq ca) a -> Forall (eq cb) b -> a <> [] -> b <> [] -> cb < ca ->
  (0 < num_samples)%Z -> (0 < nb)%Z -> 0 < dt -> (1 <= num_jobs)%Z ->
  compute_violation_ratio a b dt w = (Ok (NpFloat 0), w) /\
  exists samples w',
    get_bootstrap_estimates a b num_samples nb dt num_jobs seed w
    = (Ok (NpFloat 0, Fin 0, samples), w') /\
    aso a b cl num_samples nb dt num_jobs seed w
    = (Ok (min_epsilon_of a b cl 0 (Fin 0)), w').
Proof.
  intros Ha Hb Hna Hnb Hlt Hn Hnbp Hdt Hj.
  destruct (separated_sums ca cb a b dt Ha Hb Hna Hnb Hlt Hdt) as [Hv Hw].
  split.
  - assert (Hdt0 : dt <> 0) by lra.
    rewrite (compute_violation_ratio_nonzero a b dt w _ _
               (violation_integrals_ok a b dt Hna Hnb Hdt0) Hw).
    rewrite Hv. unfold Rdiv. now rewrite Rmult_0_l.
  - destruct (aso_ok a b cl num_samples nb dt num_jobs seed w Hna Hnb Hn Hnbp Hdt Hj Hw)
      as [sigma [samples [w' [Hest [Hpos [Hsig [Hall Haso]]]]]]].
    rewrite (separated_ratio ca cb a b dt Ha Hb Hna Hnb Hlt Hdt) in *.
    assert (Hzero : Forall (eq (NpFloat 0)) samples).
    { clear - Hall Ha Hb Hna Hnb Hlt Hdt Hn.
      induction Hall as [|sd v seeds samples [g [Hvg _]] _ IH]; constructor; auto.
      rewrite Hvg. symmetry. now apply (separated_sample ca cb). }
    assert (Hs0 : sigma_of num_samples 0 samples = Fin 0).
    { unfold sigma_of. apply np_std_zeros.
      - apply Forall2_length in Hall. rewrite bootstrap_seeds_length in Hall.
        destruct samples; [simpl in Hall; lia|discriminate].
      - rewrite !Forall_map. eapply Forall_impl; [|exact Hzero].
        intros s <-. simpl. ring. }
    rewrite Hs0 in Hsig. injection Hsig as ->.
    exists samples, w'. split; [exact Hest|exact Haso].
Qed.

End Separated.

Lemma repeat_const (c : R) (n : nat) : Forall (eq c) (repeat c n).
Proof. rewrite Forall_forall. intros x Hx. symmetry. exact (repeat_spec _ _ _ Hx). Qed.

Lemma repeat_nonempty (c : R) (n : nat) : (0 < n)%nat -> repeat c n <> [].
Proof. destruct n; [lia|discriminate]. Qed.

Section Scenario.
Context {E : Externals}.

Lemma min_epsilon_zero_inside (a b : list R) (cl : R) :
  a <> [] -> b <> [] -> 0 < cl < 1 -> min_epsilon_of a b cl 0 (Fin 0) = Fin 0.
Proof.
  intros Ha Hb Hcl. rewrite (min_epsilon_inside a b cl 0 0 Ha Hb Hcl). f_equal.
  replace (0 - 1 / const1_of a b * 0 * probit cl) with 0 by ring.
  unfold Rmax, Rmin. destruct (Rle_dec 0 0); destruct (Rle_dec 0 1); lra.
Qed.

(** C6 (amended).  For A = [10]*100 and B = [0]*100 and any [dt > 0]
    the violation ratio is exactly 0 (no warning is logged), the
    bootstrap returns [sigma_hat = 0], and [aso] returns 0 for every
    confidence level in (0,1). *)
Theorem separated_scenario (cl : R) (num_samples nb : Z) (dt : R)
    (num_jobs : Z) (seed : option Z) (w : World) :
  0 < dt -> (0 < num_samples)%Z -> (0 < nb)%Z -> (1 <= num_jobs)%Z ->
  0 < cl < 1 ->
  let A := repeat 10 100 in
  let B := repeat 0 100 in
  compute_violation_ratio A B dt w = (Ok (NpFloat 0), w) /\
  exists samples w',
    get_bootstrap_estimates A B num_samples nb dt num_jobs seed w
    = (Ok (NpFloat 0, Fin 0, samples), w') /\
    aso A B cl num_samples nb dt num_jobs seed w = (Ok (Fin 0), w').
Proof.
  intros Hdt Hn Hnb Hj Hcl A B.
  assert (HA : A <> []) by (apply repeat_nonempty; lia).
  assert (HB : B <> []) by (apply repeat_nonempty; lia).
  destruct (separated_aso 10 0 A B cl num_samples nb dt num_jobs seed w
              (repeat_const 10 100) (repeat_const 0 100) HA HB)
    as [Hv [samples [w' [Hest Haso]]]]; auto; try lra.
  split; [exact Hv|].
  exists samples, w'. split; [exact Hest|].
  now rewrite Haso, (min_epsilon_zero_inside A B cl HA HB Hcl).
Qed.

End Scenario.

(** The scenario of C6 run at [dt = 0.005]: the violation ratio is 0,
    not 1. *)
Lemma separated_scenario_ratio_is_zero :
  fst (compute_violation_ratio (repeat 10 100) (repeat 0 100) 0.005 example_world)
  = Ok (NpFloat 0) /\
  fst (compute_violation_ratio (repeat 10 100) (repeat 0 100) 0.005 example_world)
  <> Ok (NpFloat 1).
Proof.
  assert (H : compute_violation_ratio (repeat 10 100) (repeat 0 100) 0.005 example_world
              = (Ok (NpFloat 0), example_world)).
  { destruct (separated_aso (E := example_externals) 10 0 (repeat 10 100) (repeat 0 100)
                0.5 1 1 0.005 1 None example_world) as [Hv _];
      auto using repeat_const; try lra; try lia;
      apply repeat_nonempty; lia. }
  rewrite H. simpl. split; [reflexivity|].
  intros Heq. injection Heq as Heq. lra.
Qed.

(** ** [multi_aso] on two models *)

Lemma np_eye_two : np_eye 2 = [[Fin 1; Fin 0]; [Fin 0; Fin 1]].
Proof. reflexivity. Qed.

Lemma num_comparisons_two : INR 2 * (INR 2 - 1) / 2 = 1.
Proof. simpl. field. Qed.

Section MultiAso.
Context {E : Externals}.

(** With two models the only pair is (0, 1); the counter of the inner
    loop is 0 there, so both calls of [aso] are stored at [0, 0], and the
    entries [0, 1] and [1, 0] keep the zeros of the identity matrix. *)
Lemma multi_aso_two (s0 s1 : list R) (cl : R) (use_bonferroni use_symmetry : bool)
    (num_samples nb : Z) (dt : R) (num_jobs : Z) (seed : option Z) (w : World) :
  s0 <> [] -> s1 <> [] -> (0 < num_samples)%Z -> (0 < nb)%Z -> 0 < dt ->
  (1 <= num_jobs)%Z -> wasserstein_sum s0 s1 dt (grid_points dt) <> 0 ->
  exists e w',
    multi_aso [s0; s1] cl use_bonferroni use_symmetry num_samples nb dt num_jobs
      seed w
    = (Ok [[e; Fin 0]; [Fin 0; Fin 1]], w') /\
    (use_symmetry = true ->
     aso s0 s1 cl num_samples nb dt num_jobs seed w = (Ok e, w')).
Proof.
  intros H0 H1 Hn Hnb Hdt Hj HW.
  assert (HW' : wasserstein_sum s1 s0 dt (grid_points dt) <> 0)
    by now rewrite wasserstein_sum_swap.
  unfold multi_aso. cbn [_get_num_models length]. unfold bind at 1. unfold lift at 1.
  rewrite num_comparisons_two, np_eye_two.
  assert (Hcl : exists cl',
             (if use_bonferroni then lift (py_div cl 1) else ret cl) w = (Ok cl', w)
             /\ cl' = cl).
  { destruct use_bonferroni.
    - unfold lift, py_div. destruct (Req_dec_T 1 0); [lra|].
      eexists. split; [reflexivity|]. field.
    - eexists. split; reflexivity. }
  destruct Hcl as [cl' [Hcl' ->]].
  unfold bind at 1. rewrite Hcl'.
  cbn [seq for_M]. unfold bind at 1.
  change (enumerate_from 2 0) with [(0%nat, 1%nat)].
  cbn [for_M]. unfold bind at 1. unfold multi_aso_body at 1.
  change (py_index [s0; s1] (Z.of_nat 0)) with (@Ok (list R) s0).
  change (py_index [s0; s1] (Z.of_nat 1)) with (@Ok (list R) s1).
  unfold bind at 1. unfold lift at 1. unfold bind at 1. unfold lift at 1.
  destruct (aso_ok s0 s1 cl num_samples nb dt num_jobs seed w H0 H1 Hn Hnb Hdt Hj HW)
    as [sg [smp [w1 [_ [_ [_ [_ Ha]]]]]]].
  unfold bind at 1. rewrite Ha.
  unfold bind at 1. unfold lift at 1. cbn [mat_set nth_error list_set].
  destruct use_symmetry.
  - unfold bind at 1. unfold lift at 1. cbn [mat_get nth_error].
    unfold lift at 1. cbn [mat_set nth_error list_set].
    unfold ret at 1.
    change (enumerate_from 2 1) with (@nil (nat * nat)).
    cbn [for_M]. unfold bind, ret.
    eexists. exists w1. split; [reflexivity|]. intros _. reflexivity.
  - destruct (aso_ok s1 s0 cl num_samples nb dt num_jobs seed w1 H1 H0 Hn Hnb Hdt Hj HW')
      as [sg' [smp' [w2 [_ [_ [_ [_ Hb]]]]]]].
    unfold bind at 1. rewrite Hb.
    unfold lift at 1. cbn [mat_set nth_error list_set].
    unfold ret at 1.
    change (enumerate_from 2 1) with (@nil (nat * nat)).
    cbn [for_M]. unfold bind, ret.
    eexists. exists w2. split; [reflexivity|]. intros Hf. discriminate.
Qed.

(** C2, on the code.  With [use_symmetry=True] and two models (non-empty
    samples whose squared Wasserstein distance is not 0, valid bootstrap
    parameters) the entries [M[0,1]] and [M[1,0]] of the returned matrix
    are both 0: their sum is 0, not 1. *)
Theorem multi_aso_symmetry_two (s0 s1 : list R) (cl : R) (use_bonferroni : bool)
    (num_samples nb : Z) (dt : R) (num_jobs : Z) (seed : option Z) (w : World) :
  s0 <> [] -> s1 <> [] -> (0 < num_samples)%Z -> (0 < nb)%Z -> 0 < dt ->
  (1 <= num_jobs)%Z -> wasserstein_sum s0 s1 dt (grid_points dt) <> 0 ->
  exists m w' x y,
    multi_aso [s0; s1] cl use_bonferroni true num_samples nb dt num_jobs seed w
    = (Ok m, w') /\
    mat_get m 0 1 = Ok x /\
    mat_get m 1 0 = Ok y /\
    xadd x y = Fin 0 /\
    xadd x y <> Fin 1.
Proof.
  intros H0 H1 Hn Hnb Hdt Hj HW.
  destruct (multi_aso_two s0 s1 cl use_bonferroni true num_samples nb dt num_jobs
              seed w H0 H1 Hn Hnb Hdt Hj HW) as [e [w' [Hm _]]].
  eexists. exists w', (Fin 0), (Fin 0). split; [exact Hm|].
  assert (Hsum : xadd (Fin 0) (Fin 0) = Fin 0) by (simpl; f_equal; ring).
  repeat split; [exact Hsum|].
  rewrite Hsum. intros Heq. injection Heq as Heq. lra.
Qed.

End MultiAso.

(** C7, on the code.  [multi_aso] on the two samples [1.0] and [0.0]
    with the default options: the entry [M[0,0]] of the diagonal holds
    the result of [aso] on the pair, which is 0, not 1. *)
Theorem multi_aso_diagonal_overwritten :
  fst (multi_aso (E := example_externals) [[1]; [0]] 0.05 true true 1000 1000
         0.005 1 None example_world)
  = Ok [[Fin 0; Fin 0]; [Fin 0; Fin 1]].
Proof.
  destruct (multi_aso_two (E := example_externals) [1] [0] 0.05 true true
              1000 1000 0.005 1 None example_world)
    as [e [w' [Hm He]]]; try discriminate; try lra; try lia.
  { apply (separated_sums 1 0); try (repeat constructor); try discriminate; lra. }
  rewrite Hm. simpl fst. specialize (He eq_refl).
  destruct (separated_aso (E := example_externals) 1 0 [1] [0] 0.05 1000 1000 0.005 1
              None example_world)
    as [_ [samples [w2 [_ Haso]]]];
    try (repeat constructor); try discriminate; try lra; try lia.
  rewrite Haso in He.
  rewrite min_epsilon_zero_inside in He; try discriminate; try lra.
  injection He as <- _. reflexivity.
Qed.

(** ** The Bayes factor *)

Lemma exp_ln_sub (x y : R) : 0 < x -> 0 < y -> exp (ln x - ln y) = x / y.
Proof.
  intros Hx Hy. unfold Rminus. rewrite exp_plus, exp_Ropp, !exp_ln by assumption.
  reflexivity.
Qed.

Lemma xlog_pos (x : R) : 0 < x -> xlog (Fin x) = Fin (ln x).
Proof. intros H. simpl. destruct (Rlt_dec 0 x); [reflexivity|lra]. Qed.

Lemma xlog_neg (x : R) : x < 0 -> xlog (Fin x) = NaN.
Proof.
  intros H. simpl. destruct (Rlt_dec 0 x); [lra|].
  destruct (Req_dec_T x 0); [lra|reflexivity].
Qed.

Section BayesFactor.
Context {E : Externals}.

Lemma bayes_factor_ratio (cp cq : R) :
  0 < (1 - cp) * cq + 1e-6 -> 0 < cp * (1 - cq) + 1e-6 ->
  bayes_factor (Fin cp) (Fin cq)
  = Fin (((1 - cp) * cq + 1e-6) / (cp * (1 - cq) + 1e-6)).
Proof.
  intros Hn Hd. unfold bayes_factor.
  cbn [xsub xneg xadd xmul].
  replace ((1 + - cp) * cq + 1e-6) with ((1 - cp) * cq + 1e-6) by ring.
  replace (cp * (1 + - cq) + 1e-6) with (cp * (1 - cq) + 1e-6) by ring.
  rewrite (xlog_pos _ Hn), (xlog_pos _ Hd).
  cbn [xsub xneg xadd xexp]. f_equal.
  fold (ln ((1 - cp) * cq + 1e-6) - ln (cp * (1 - cq) + 1e-6)).
  now apply exp_ln_sub.
Qed.

Lemma bayes_factor_nan (cp cq : R) :
  (1 - cp) * cq + 1e-6 < 0 -> bayes_factor (Fin cp) (Fin cq) = NaN.
Proof.
  intros Hn. unfold bayes_factor.
  cbn [xsub xneg xadd xmul].
  replace ((1 + - cp) * cq + 1e-6) with ((1 - cp) * cq + 1e-6) by ring.
  rewrite (xlog_neg _ Hn). reflexivity.
Qed.

Lemma py_div_const (a b : list R) :
  a <> [] -> b <> [] ->
  py_div (IZR (len b)) (IZR (len a * len b))
  = Ok (IZR (len b) / IZR (len a * len b)).
Proof.
  intros Ha Hb. apply len_pos in Ha, Hb. unfold py_div.
  destruct (Req_dec_T (IZR (len a * len b)) 0) as [H0|_]; [|reflexivity].
  apply eq_IZR in H0. lia.
Qed.

Lemma posterior_of_ok (pr : prior) (N : Z) (samples : list R) :
  prior_scale pr + IZR N <> 0 ->
  exists po, posterior_of pr N samples = Ok po /\
    posterior_loc po
    = Fin ((prior_scale pr * prior_loc pr + IZR N * mean_list samples)
           / (prior_scale pr + IZR N)) /\
    posterior_scale po = prior_scale pr + IZR N /\
    posterior_alpha po = prior_alpha pr + IZR N / 2 /\
    posterior_beta po
    = prior_beta pr
      + 0.5 * sum_list (map (fun s => (s - mean_list samples) ^ 2) samples)
      + IZR N * prior_scale pr / (prior_scale pr + IZR N)
        * (mean_list samples - prior_loc pr) ^ 2 / 2.
Proof.
  intros HN. unfold posterior_of, py_div. cbn [xdiv].
  destruct (Req_dec_T (prior_scale pr + IZR N) 0); [contradiction|].
  eexists. split; [reflexivity|]. repeat split.
Qed.

(** On valid arguments [bf_aso] returns the Bayes factor of the two
    values of the cumulative distribution function, evaluated with the
    variance and the posterior derived from the bootstrap. *)
Lemma bf_aso_ok (a b : list R) (thr : R) (pr : prior) (num_samples nb : Z)
    (dt : R) (num_jobs : Z) (w : World) :
  a <> [] -> b <> [] -> (0 < num_samples)%Z -> (0 < nb)%Z -> 0 < dt ->
  (1 <= num_jobs)%Z -> wasserstein_sum a b dt (grid_points dt) <> 0 ->
  prior_scale pr + IZR (len a + len b) <> 0 ->
  exists sigma samples po w',
    get_bootstrap_estimates a b num_samples nb dt num_jobs None w
    = (Ok (NpFloat (ratio_of a b dt), Fin sigma, samples), w') /\
    Fin sigma = sigma_of num_samples (ratio_of a b dt) samples /\
    Forall2 (iteration_result a b num_samples dt) (bootstrap_seeds None nb) samples /\
    posterior_of pr (len a + len b) (map num_val samples) = Ok po /\
    let var := Fin (sqrt (IZR (len a) + IZR (len b) / IZR (len a * len b)) * sigma) in
    bf_aso a b thr pr num_samples nb dt num_jobs w
    = (Ok (bayes_factor (cdf_posterior thr var po) (cdf_prior thr var pr)), w').
Proof.
  intros Ha Hb Hn Hnb Hdt Hj HW HN.
  destruct (aso_ok a b thr num_samples nb dt num_jobs None w Ha Hb Hn Hnb Hdt Hj HW)
    as [sigma [samples [w' [Hest [_ [Hsig [Hall _]]]]]]].
  destruct (posterior_of_ok pr (len a + len b) (map num_val samples) HN)
    as [po [Hpo _]].
  exists sigma, samples, po, w'.
  split; [exact Hest|]. split; [exact Hsig|]. split; [exact Hall|].
  split; [exact Hpo|].
  intros var. unfold bf_aso. cbv beta zeta delta [score_conversion].
  destruct (aso_asserts_pass a b num_samples nb num_jobs Ha Hb Hn Hnb Hj)
    as [H1 [H2 [H3 H4]]].
  rewrite H1, H2, H3, H4.
  unfold py_assert, bind, ret, lift.
  rewrite Hest, (py_div_const a b Ha Hb), Hpo. reflexivity.
Qed.

End BayesFactor.

(** ** The Bayes factor when the bootstrap has no variance *)

Lemma xdiv_fin (x y : R) : y <> 0 -> xdiv (Fin x) (Fin y) = Fin (x / y).
Proof. intros H. simpl. destruct (Req_dec_T y 0); [contradiction|reflexivity]. Qed.

Lemma xsqrt_fin (x : R) : 0 <= x -> xsqrt (Fin x) = Fin (sqrt x).
Proof. intros H. simpl. destruct (Rlt_dec x 0); [lra|reflexivity]. Qed.

Lemma sum_list_nonneg (l : list R) : Forall (fun x => 0 <= x) l -> 0 <= sum_list l.
Proof.
  induction 1; [unfold sum_list; simpl; lra|]. rewrite sum_list_cons. lra.
Qed.

Section Degenerate.
Context {E : Externals}.
Hypothesis erf_lower : forall t : R, -1 <= erf t.

Lemma xpow_pos (x y : R) : 0 < x -> xpow (Fin x) (Fin y) = Fin (Rpower x y).
Proof. intros H. simpl. destruct (Rlt_dec 0 x); [reflexivity|lra]. Qed.

(** With variance 0 the value of [normal_inverse_gamma_cdf] is a finite
    number far above 1, for every shape [alpha >= 1] at which the gamma
    function is finite and every rate [beta >= 1]. *)
Lemma normal_inverse_gamma_cdf_var_zero (x loc scale alpha beta : R) :
  0 <= scale -> 1 <= alpha -> 1 <= beta ->
  (exists g, gamma alpha = Fin g) ->
  exists c,
    normal_inverse_gamma_cdf (Fin x) (Fin 0) (Fin loc) (Fin scale) (Fin alpha)
      (Fin beta) = Fin c /\ 2 <= c.
Proof.
  intros Hscale Halpha Hbeta [g Hg].
  unfold normal_inverse_gamma_cdf.
  cbn [xadd xneg xsub xmul xgamma].
  assert (He : 0 + 1e-6 <> 0) by lra.
  rewrite !(xdiv_fin _ _ He).
  set (B := beta / (0 + 1e-6)).
  assert (HB : 1e6 <= B).
  { unfold B. replace (0 + 1e-6) with (/ 1e6) by lra.
    unfold Rdiv. rewrite Rinv_inv. nra. }
  rewrite (xpow_pos B alpha) by lra.
  cbn [xexp xadd np_isinf].
  rewrite (xsqrt_fin scale Hscale).
  rewrite (xsqrt_fin (2 * 0)) by lra.
  cbn [xmul xadd].
  assert (Hs : sqrt (2 * 0) + 1e-6 <> 0).
  { pose proof (sqrt_pos (2 * 0)). lra. }
  rewrite (xdiv_fin _ _ Hs). cbn [xadd xerf]. rewrite Hg. cbn [xmul xadd].
  set (t := sqrt scale * (x + - loc) / (sqrt (2 * 0) + 1e-6) + 1).
  set (num := exp (- beta / (0 + 1e-6)) + Rpower B alpha + erf t).
  set (den := 2 * 0 * g + 1e-6).
  assert (Hpow : B <= Rpower B alpha).
  { rewrite <- (Rpower_1 B) at 1 by lra. apply Rle_Rpower; lra. }
  assert (Hnum : 1e6 - 1 <= num).
  { unfold num. pose proof (exp_pos (- beta / (0 + 1e-6))).
    pose proof (erf_lower t). lra. }
  assert (Hden : den = 1e-6) by (unfold den; ring).
  rewrite (xlog_pos num) by lra.
  rewrite (xlog_pos den) by lra.
  cbn [xsub xneg xadd xexp].
  fold (ln num - ln den). rewrite exp_ln_sub by lra.
  eexists. split; [reflexivity|].
  rewrite Hden. replace 1e-6 with (/ 1e6) by lra.
  unfold Rdiv. rewrite Rinv_inv. nra.
Qed.

(** Both values then being at least 2, the numerator of the Bayes factor
    is negative and its logarithm is [nan]. *)
Lemma bayes_factor_var_zero (thr : R) (pr : prior) (N : Z) (samples : list R)
    (po : posterior) :
  0 <= prior_scale pr -> 1 <= prior_alpha pr -> 1 <= prior_beta pr ->
  (0 < N)%Z ->
  (exists g, gamma (prior_alpha pr) = Fin g) ->
  (exists g, gamma (prior_alpha pr + IZR N / 2) = Fin g) ->
  posterior_of pr N samples = Ok po ->
  bayes_factor (cdf_posterior thr (Fin 0) po) (cdf_prior thr (Fin 0) pr) = NaN.
Proof.
  intros Hscale Halpha Hbeta HN Hg1 Hg2 Hpo.
  assert (HNR : 0 < IZR N) by (apply IZR_lt; lia).
  destruct (posterior_of_ok pr N samples) as [po' [Hpo' [Hloc [Hsc [Hal Hbe]]]]];
    [lra|].
  rewrite Hpo in Hpo'. injection Hpo' as <-.
  unfold cdf_posterior, cdf_prior. rewrite Hloc.
  destruct (normal_inverse_gamma_cdf_var_zero thr (prior_loc pr) (prior_scale pr)
              (prior_alpha pr) (prior_beta pr) Hscale Halpha Hbeta Hg1)
    as [cq [Hcq Hq2]].
  destruct (normal_inverse_gamma_cdf_var_zero thr
              ((prior_scale pr * prior_loc pr + IZR N * mean_list samples)
               / (prior_scale pr + IZR N))
              (posterior_scale po) (posterior_alpha po) (posterior_beta po))
    as [cp [Hcp Hp2]].
  - rewrite Hsc. lra.
  - rewrite Hal. lra.
  - rewrite Hbe.
    assert (Hsq : 0 <= sum_list (map (fun s => (s - mean_list samples) ^ 2) samples)).
    { apply sum_list_nonneg. rewrite Forall_map. rewrite Forall_forall.
      intros s _. apply pow2_ge_0. }
    assert (Hq : 0 <= IZR N * prior_scale pr / (prior_scale pr + IZR N)).
    { apply Rmult_le_pos; [nra|]. apply Rlt_le, Rinv_0_lt_compat. lra. }
    pose proof (pow2_ge_0 (mean_list samples - prior_loc pr)) as Hm.
    assert (0 <= IZR N * prior_scale pr / (prior_scale pr + IZR N)
                 * (mean_list samples - prior_loc pr) ^ 2 / 2).
    { apply Rmult_le_pos; [|lra]. now apply Rmult_le_pos. }
    lra.
  - rewrite Hal. exact Hg2.
  - rewrite Hcp, Hcq. apply bayes_factor_nan. nra.
Qed.

(** [bf_aso] on samples whose bootstrap has no variance (every score of A
    equal to [ca], every score of B to [cb < ca]) returns [nan]. *)
Lemma bf_aso_separated (ca cb : R) (a b : list R) (thr : R) (pr : prior)
    (num_samples nb : Z) (dt : R) (num_jobs : Z) (w : World) :
  Forall (eq ca) a -> Forall (eq cb) b -> a <> [] -> b <> [] -> cb < ca ->
  (0 < num_samples)%Z -> (0 < nb)%Z -> 0 < dt -> (1 <= num_jobs)%Z ->
  0 <= prior_scale pr -> 1 <= prior_alpha pr -> 1 <= prior_beta pr ->
  (exists g, gamma (prior_alpha pr) = Fin g) ->
  (exists g, gamma (prior_alpha pr + IZR (len a + len b) / 2) = Fin g) ->
  fst (bf_aso a b thr pr num_samples nb dt num_jobs w) = Ok NaN.
Proof.
  intros Ha Hb Hna Hnb Hlt Hn Hnbp Hdt Hj Hscale Halpha Hbeta Hg1 Hg2.
  pose proof (len_pos a Hna) as Hla. pose proof (len_pos b Hnb) as Hlb.
  assert (HN : prior_scale pr + IZR (len a + len b) <> 0).
  { assert (0 < IZR (len a + len b)) by (apply IZR_lt; lia). lra. }
  destruct (separated_sums ca cb a b dt Ha Hb Hna Hnb Hlt Hdt) as [_ HW].
  destruct (bf_aso_ok a b thr pr num_samples nb dt num_jobs w Hna Hnb Hn Hnbp Hdt Hj
              HW HN)
    as [sigma [samples [po [w' [Hest [_ [_ [Hpo Hbf]]]]]]]].
  destruct (separated_aso ca cb a b thr num_samples nb dt num_jobs None w
              Ha Hb Hna Hnb Hlt Hn Hnbp Hdt Hj)
    as [_ [samples' [w'' [Hest' _]]]].
  rewrite Hest in Hest'. injection Hest' as _ Hsig _ _.
  rewrite Hbf. simpl fst. f_equal. rewrite Hsig, Rmult_0_r.
  apply (bayes_factor_var_zero thr pr (len a + len b) (map num_val samples) po);
    auto. lia.
Qed.

End Degenerate.

(** ** Identical samples *)

Lemma wasserstein_sum_same (a : list R) (dt : R) (grid : list R) :
  wasserstein_sum a a dt grid = 0.
Proof.
  unfold wasserstein_sum. apply sum_list_zeros. rewrite Forall_map.
  rewrite Forall_forall. intros p _. unfold quantile_diff. ring.
Qed.

Section Identical.
Context {E : Externals}.

(** [aso] on samples whose squared Wasserstein distance is 0: the
    assertions pass, the pool runs, and the subtraction
    [samples - violation_ratio] raises. *)
Lemma aso_degenerate (a b : list R) (cl : R) (num_samples nb : Z) (dt : R)
    (num_jobs : Z) (seed : option Z) (w : World) :
  a <> [] -> b <> [] -> (0 < num_samples)%Z -> (0 < nb)%Z -> 0 < dt ->
  (1 <= num_jobs)%Z -> wasserstein_sum a b dt (grid_points dt) = 0 ->
  exists w', aso a b cl num_samples nb dt num_jobs seed w = (Raise TypeError, w').
Proof.
  intros Ha Hb Hn Hnb Hdt Hj HW.
  destruct (get_bootstrap_estimates_degenerate a b num_samples nb dt num_jobs seed w)
    as [w' Hest]; auto; try lra; try lia.
  exists w'. unfold aso. cbv beta zeta delta [score_conversion].
  destruct (aso_asserts_pass a b num_samples nb num_jobs Ha Hb Hn Hnb Hj)
    as [H1 [H2 [H3 H4]]].
  rewrite H1, H2, H3, H4.
  unfold py_assert, bind, ret, lift.
  now rewrite (py_div_const1 a b Ha Hb), Hest.
Qed.

(** The same in [bf_aso]. *)
Lemma bf_aso_degenerate (a b : list R) (thr : R) (pr : prior) (num_samples nb : Z)
    (dt : R) (num_jobs : Z) (w : World) :
  a <> [] -> b <> [] -> (0 < num_samples)%Z -> (0 < nb)%Z -> 0 < dt ->
  (1 <= num_jobs)%Z -> wasserstein_sum a b dt (grid_points dt) = 0 ->
  exists w', bf_aso a b thr pr num_samples nb dt num_jobs w = (Raise TypeError, w').
Proof.
  intros Ha Hb Hn Hnb Hdt Hj HW.
  destruct (get_bootstrap_estimates_degenerate a b num_samples nb dt num_jobs None w)
    as [w' Hest]; auto; try lra; try lia.
  exists w'. unfold bf_aso. cbv beta zeta delta [score_conversion].
  destruct (aso_asserts_pass a b num_samples nb num_jobs Ha Hb Hn Hnb Hj)
    as [H1 [H2 [H3 H4]]].
  rewrite H1, H2, H3, H4.
  unfold py_assert, bind, ret, lift.
  now rewrite Hest.
Qed.

End Identical.

(** ** [aso] and [bf_aso] against their specification *)

Section Departures.
Context {E : Externals}.

(** C1, on the code.  On the samples [1.0] and [0.0], with any valid
    numbers of samples, iterations and jobs and any positive step, [aso]
    at confidence level 1 returns [nan]: [sigma_hat] is 0, the normal
    quantile is [+inf], their product is [nan] and Python's [max] and
    [min] hand a [nan] first argument on, so that the value is not in
    [0,1].  On the samples [1.0] and [1.0] and the same arguments, at any
    confidence level, [aso] returns nothing: the violation ratio is the
    int 0 of the division-by-zero branch and the subtraction
    [samples - violation_ratio] raises a [TypeError]. *)
Theorem aso_outside_unit_interval (num_samples nb : Z) (dt : R) (num_jobs : Z)
    (seed : option Z) (w : World) :
  (0 < num_samples)%Z -> (0 < nb)%Z -> 0 < dt -> (1 <= num_jobs)%Z ->
  fst (aso [1] [0] 1 num_samples nb dt num_jobs seed w) = Ok NaN /\
  forall cl, fst (aso [1] [1] cl num_samples nb dt num_jobs seed w) = Raise TypeError.
Proof.
  intros Hn Hnb Hdt Hj. split.
  - destruct (separated_aso 1 0 [1] [0] 1 num_samples nb dt num_jobs seed w)
      as [_ [samples [w' [_ Haso]]]];
      try (repeat constructor); try discriminate; try lra; try lia.
    rewrite Haso. simpl fst. f_equal.
    apply min_epsilon_one_zero; discriminate.
  - intros cl.
    destruct (aso_degenerate [1] [1] cl num_samples nb dt num_jobs seed w) as [w' H];
      try discriminate; try lra; try lia.
    + apply wasserstein_sum_same.
    + now rewrite H.
Qed.

(** C9, on the code.  With the default prior, any threshold, any valid
    numbers of samples, iterations and jobs and any positive step,
    [bf_aso] on the samples [1.0] and [0.0] returns [nan], which is not
    the quotient of the claim: [sigma_hat] is 0, both values of
    [normal_inverse_gamma_cdf] are far above 1 and the logarithm of the
    negative numerator is [nan].  This holds for every error function
    bounded below by -1 and every gamma function that is finite at the
    shapes 3 (prior) and 4 (posterior).  On the samples [1.0] and [1.0]
    [bf_aso] raises a [TypeError]. *)
Theorem bf_aso_not_the_quotient (thr : R) (num_samples nb : Z) (dt : R)
    (num_jobs : Z) (w : World) :
  (forall t : R, -1 <= erf t) ->
  (exists g, gamma 3 = Fin g) -> (exists g, gamma 4 = Fin g) ->
  (0 < num_samples)%Z -> (0 < nb)%Z -> 0 < dt -> (1 <= num_jobs)%Z ->
  fst (bf_aso [1] [0] thr default_prior num_samples nb dt num_jobs w) = Ok NaN /\
  fst (bf_aso [1] [1] thr default_prior num_samples nb dt num_jobs w)
  = Raise TypeError.
Proof.
  intros Herf Hg3 Hg4 Hn Hnb Hdt Hj. split.
  - assert (Ha : Forall (eq 1) [1]) by (repeat constructor).
    assert (Hb : Forall (eq 0) [0]) by (repeat constructor).
    apply (bf_aso_separated Herf 1 0 [1] [0] thr default_prior num_samples nb dt
             num_jobs w Ha Hb); try discriminate; try assumption;
      try (simpl; lra).
    simpl. replace (3 + 2 / 2) with 4 by lra. exact Hg4.
  - destruct (bf_aso_degenerate [1] [1] thr default_prior num_samples nb dt num_jobs w)
      as [w' H]; try discriminate; try lra; try lia.
    + apply wasserstein_sum_same.
    + now rewrite H.
Qed.

End Departures.

(** * The theorems at concrete arguments *)

Lemma separated_one_zero (dt : R) :
  0 < dt -> wasserstein_sum [1] [0] dt (grid_points dt) <> 0.
Proof.
  intros Hdt.
  apply (separated_sums 1 0); try (repeat constructor); try discriminate; lra.
Qed.

Lemma aso_outside_unit_interval_witness :
  fst (aso (E := example_externals) [1] [0] 1 1000 1000 0.005 1 None example_world)
  = Ok NaN /\
  forall cl,
    fst (aso (E := example_externals) [1] [1] cl 1000 1000 0.005 1 None example_world)
    = Raise TypeError.
Proof.
  apply (aso_outside_unit_interval (E := example_externals) 1000 1000 0.005 1 None
           example_world); try lia; lra.
Defined.

Lemma multi_aso_symmetry_two_witness :
  exists m x y,
    fst (multi_aso (E := example_externals) [[1]; [0]] 0.05 true true 1000 1000
           0.005 1 None example_world) = Ok m /\
    mat_get m 0 1 = Ok x /\ mat_get m 1 0 = Ok y /\ xadd x y <> Fin 1.
Proof.
  destruct (multi_aso_symmetry_two (E := example_externals) [1] [0] 0.05 true
              1000 1000 0.005 1 None example_world)
    as [m [w' [x [y [Hm [Hx [Hy [_ Hne]]]]]]]];
    try discriminate; try lia; try lra.
  - apply separated_one_zero. lra.
  - exists m, x, y. rewrite Hm. repeat split; assumption.
Defined.

Lemma bootstrap_deterministic_witness :
  fst (get_bootstrap_estimates (E := example_externals) [1; 2] [3] 2 3 0.5 1
         (Some 42%Z) example_world)
  = fst (get_bootstrap_estimates (E := example_externals) [1; 2] [3] 2 3 0.5 4
           (Some 42%Z) other_world).
Proof.
  destruct (bootstrap_deterministic (E := example_externals) [1; 2] [3] 2 3 0.5 1 4
              42 example_world other_world)
    as [_ [Heq _]]; try discriminate; try lia; try lra.
  exact Heq.
Defined.

Lemma quantile_function_spec_witness :
  exists m, _quantile_function [3; 1; 2] 1 = Ok m /\ In m [3; 1; 2] /\
            forall x, In x [3; 1; 2] -> x <= m.
Proof.
  destruct (quantile_function_spec [3; 1; 2] (1 / 4) (1 / 2))
    as [_ [_ [_ [Hmax _]]]]; try discriminate; try lra.
  exact Hmax.
Defined.

Lemma compute_violation_ratio_spec_witness :
  exists sq iv, violation_integrals [1; 2] [3] 0.5 = Ok (sq, iv).
Proof.
  destruct (compute_violation_ratio_spec (E := example_externals) [1; 2] [3] 0.5
              example_world)
    as [sq [iv [Hint _]]]; try discriminate; try lra.
  now exists sq, iv.
Defined.

Lemma separated_scenario_witness :
  fst (aso (E := example_externals) (repeat 10 100) (repeat 0 100) 0.05 1000 1000
         0.005 1 None example_world) = Ok (Fin 0).
Proof.
  destruct (separated_scenario (E := example_externals) 0.05 1000 1000 0.005 1 None
              example_world)
    as [_ [samples [w' [_ Haso]]]]; try lia; try lra.
  now rewrite Haso.
Defined.

Lemma aso_invalid_argument_witness :
  aso (E := example_externals) [] [1] 0.05 1000 1000 0.005 1 None example_world
  = (Raise AssertionError, example_world).
Proof.
  apply (aso_invalid_argument (E := example_externals)). left. reflexivity.
Defined.

Lemma bf_aso_not_the_quotient_witness :
  fst (bf_aso (E := example_externals) [1] [0] 0.5 default_prior 1000 1000 0.005 1
         example_world) = Ok NaN /\
  fst (bf_aso (E := example_externals) [1] [1] 0.5 default_prior 1000 1000 0.005 1
         example_world) = Raise TypeError.
Proof.
  apply (bf_aso_not_the_quotient (E := example_externals) 0.5 1000 1000 0.005 1
           example_world); try lia; try lra.
  - intros t. simpl. lra.
  - exists 1. reflexivity.
  - exists 1. reflexivity.
Defined.

Lemma violation_ratio_symmetry_witness :
  exists x y,
    fst (compute_violation_ratio (E := example_externals) [1] [0] 0.5 example_world)
    = Ok (NpFloat x) /\
    fst (compute_violation_ratio (E := example_externals) [0] [1] 0.5 example_world)
    = Ok (NpFloat y) /\
    x + y = 1.
Proof.
  destruct (violation_ratio_symmetry (E := example_externals) [1] [0] 0.5
              example_world)
    as [sq [iv [Hint Hsym]]]; try discriminate; try lra.
  rewrite (violation_integrals_ok [1] [0] 0.5) in Hint;
    try discriminate; try lra.
  injection Hint as <- <-.
  destruct (Hsym (separated_one_zero 0.5 ltac:(lra))) as [x [y [Hx [Hy Hxy]]]].
  exists x, y. rewrite Hx, Hy. repeat split. exact Hxy.
Defined.

(** * Further properties of the code *)

(** ** The violation ratio as a function of the samples *)

Lemma sum_list_le (f g : R -> R) (l : list R) :
  (forall p, f p <= g p) -> sum_list (map f l) <= sum_list (map g l).
Proof.
  intros H. induction l as [|p l IH]; cbn [map].
  - unfold sum_list. simpl. lra.
  - rewrite !sum_list_cons. specialize (H p). lra.
Qed.

Lemma sum_list_pos (l : list R) :
  l <> [] -> Forall (fun x => 0 < x) l -> 0 < sum_list l.
Proof.
  intros Hne Hall. induction Hall as [|x l Hx Hall IH]; [contradiction|].
  rewrite sum_list_cons. destruct l as [|y l].
  - unfold sum_list. simpl. lra.
  - assert (0 < sum_list (y :: l)) by (apply IH; discriminate). lra.
Qed.

Lemma py_maxR_sq_bounds (d : R) : 0 <= py_maxR d 0 ^ 2 <= d ^ 2.
Proof.
  rewrite py_maxR_0. destruct (Rlt_dec d 0); split; try nra.
Qed.

Lemma violation_sum_bounds (a b : list R) (dt : R) (grid : list R) :
  0 <= dt ->
  0 <= violation_sum a b dt grid <= wasserstein_sum a b dt grid.
Proof.
  intros Hdt. unfold violation_sum, wasserstein_sum. split.
  - apply sum_list_nonneg. rewrite Forall_map, Forall_forall. intros p _.
    pose proof (py_maxR_sq_bounds (quantile_diff a b p)). nra.
  - apply sum_list_le. intros p.
    pose proof (py_maxR_sq_bounds (quantile_diff a b p)). nra.
Qed.

Section RatioRange.
Context {E : Externals}.

(** X1.  On non-empty samples of moderate scores and a step in (0,1],
    [compute_violation_ratio] returns a number of [0,1] (the int 0 of the
    division-by-zero branch, or the quotient). *)
Theorem violation_ratio_in_unit_interval (a b : list R) (dt : R) (w : World) :
  a <> [] -> b <> [] -> moderate a -> moderate b -> 0 < dt <= 1 ->
  exists v w',
    compute_violation_ratio a b dt w = (Ok v, w') /\ 0 <= num_val v <= 1.
Proof.
  intros Ha Hb _ _ [Hdt _].
  destruct (compute_violation_ratio_value a b dt w Ha Hb) as [w' Hv]; [lra|].
  exists (violation_ratio_value a b dt), w'. split; [exact Hv|].
  unfold violation_ratio_value.
  destruct (Req_dec_T (wasserstein_sum a b dt (grid_points dt)) 0) as [Hz|Hnz].
  - simpl. lra.
  - simpl. unfold ratio_of.
    pose proof (violation_sum_bounds a b dt (grid_points dt) (Rlt_le _ _ Hdt))
      as [H0 H1].
    set (V := violation_sum a b dt (grid_points dt)) in *.
    set (W := wasserstein_sum a b dt (grid_points dt)) in *.
    assert (HW : 0 < W) by lra.
    split.
    + apply Rmult_le_pos; [exact H0|]. apply Rlt_le, Rinv_0_lt_compat, HW.
    + apply (Rmult_le_reg_r W); [exact HW|].
      unfold Rdiv. rewrite Rmult_assoc, Rinv_l by lra. lra.
Qed.

End RatioRange.

Lemma violation_ratio_in_unit_interval_witness :
  exists v w',
    compute_violation_ratio (E := example_externals) [1; 4] [2; 3] 0.5 example_world
    = (Ok v, w') /\ 0 <= num_val v <= 1.
Proof.
  apply (violation_ratio_in_unit_interval (E := example_externals));
    try discriminate; try lra; repeat constructor; lra.
Defined.

(** ** The order of the scores *)

Lemma sorted_perm_eq (l l' : list R) :
  StronglySorted Rle l -> StronglySorted Rle l' -> Permutation l l' -> l = l'.
Proof.
  intros Hl. revert l'. induction Hl as [|x l Hs IH Hall]; intros l' Hl' Hp.
  - apply Permutation_nil in Hp. now subst.
  - destruct l' as [|y l'].
    + apply Permutation_sym, Permutation_nil in Hp. discriminate.
    + inversion Hl' as [|y' l'' Hs' Hall']; subst.
      rewrite Forall_forall in Hall, Hall'.
      assert (Hxy : x = y).
      { assert (Hy : In y (x :: l)).
        { apply (Permutation_in _ (Permutation_sym Hp)). now left. }
        assert (Hx : In x (y :: l')).
        { apply (Permutation_in _ Hp). now left. }
        destruct Hy as [Hy|Hy]; [congruence|].
        destruct Hx as [Hx|Hx]; [congruence|].
        apply Hall in Hy. apply Hall' in Hx. lra. }
      subst y. f_equal. apply IH; [exact Hs'|].
      now apply Permutation_cons_inv in Hp.
Qed.

Lemma np_sort_permutation (a a' : list R) :
  Permutation a a' -> np_sort a = np_sort a'.
Proof.
  intros Hp. apply sorted_perm_eq; try apply np_sort_sorted.
  apply perm_trans with a; [apply np_sort_perm|].
  apply perm_trans with a'; [exact Hp|]. apply Permutation_sym, np_sort_perm.
Qed.

Lemma quantile_function_permutation (a a' : list R) (p : R) :
  Permutation a a' -> _quantile_function a p = _quantile_function a' p.
Proof.
  intros Hp. unfold _quantile_function.
  now rewrite (np_sort_permutation a a' Hp), (Permutation_length Hp).
Qed.

Lemma for_res_ext {S A} (f g : S -> A -> res S) (l : list A) (s : S) :
  (forall s x, f s x = g s x) -> for_res f l s = for_res g l s.
Proof.
  intros H. revert s. induction l as [|x l IH]; intros s; simpl; [reflexivity|].
  rewrite H. destruct (g s x); simpl; [apply IH|reflexivity].
Qed.

Lemma violation_integrals_permutation (a a' b b' : list R) (dt : R) :
  Permutation a a' -> Permutation b b' ->
  violation_integrals a b dt = violation_integrals a' b' dt.
Proof.
  intros Ha Hb. unfold violation_integrals.
  destruct (np_arange 0 1 dt) as [grid|e]; simpl; [|reflexivity].
  apply for_res_ext. intros s p. unfold violation_step.
  now rewrite (quantile_function_permutation a a' p Ha),
              (quantile_function_permutation b b' p Hb).
Qed.

Section Reordering.
Context {E : Externals}.

(** X2.  [compute_violation_ratio] does not depend on the order of the
    scores: reordering either sample changes neither the result (value
    or exception) nor the warning. *)
Theorem violation_ratio_reordering (a a' b b' : list R) (dt : R) (w : World) :
  Permutation a a' -> Permutation b b' ->
  compute_violation_ratio a b dt w = compute_violation_ratio a' b' dt w.
Proof.
  intros Ha Hb. unfold compute_violation_ratio, bind, lift.
  now rewrite (violation_integrals_permutation a a' b b' dt Ha Hb).
Qed.

(** X3.  On two samples with the same scores (in any order) every
    quantile difference is 0: [compute_violation_ratio] logs the
    division-by-zero warning and returns the int 0. *)
Theorem violation_ratio_same_scores (a a' : list R) (dt : R) (w : World) :
  a <> [] -> Permutation a a' -> 0 < dt ->
  compute_violation_ratio a a' dt w
  = (Ok (PyInt 0),
     mkWorld (rng w) (sched w) (events w ++ [Warning zero_division_warning])).
Proof.
  intros Ha Hp Hdt.
  apply (compute_violation_ratio_zero a a' dt w
           (violation_sum a a dt (grid_points dt))).
  rewrite <- (violation_integrals_permutation a a a a' dt (Permutation_refl a) Hp).
  rewrite (violation_integrals_ok a a dt Ha Ha) by lra.
  now rewrite wasserstein_sum_same.
Qed.

End Reordering.

Lemma violation_ratio_reordering_witness :
  compute_violation_ratio (E := example_externals) [1; 2; 3] [5; 4] 0.5 example_world
  = compute_violation_ratio (E := example_externals) [3; 1; 2] [4; 5] 0.5 example_world.
Proof.
  apply (violation_ratio_reordering (E := example_externals)).
  - apply Permutation_sym.
    apply perm_trans with (1 :: 3 :: [2]); [apply perm_swap|].
    apply perm_skip, perm_swap.
  - apply perm_swap.
Defined.

Lemma violation_ratio_same_scores_witness :
  fst (compute_violation_ratio (E := example_externals) [1; 2] [2; 1] 0.5 example_world)
  = Ok (PyInt 0).
Proof.
  rewrite (violation_ratio_same_scores (E := example_externals) [1; 2] [2; 1] 0.5
             example_world); [reflexivity|discriminate|apply perm_swap|lra].
Defined.

(** ** Empty samples and steps that are not positive *)

Lemma np_arange_negative (dt : R) : dt < 0 -> np_arange 0 1 dt = Ok [].
Proof.
  intros Hdt. unfold np_arange.
  destruct (Req_dec_T dt 0); [lra|].
  assert (Hc : (Zceil ((1 - 0) / dt) <= 0)%Z).
  { pose proof (Zceil_bound ((1 - 0) / dt)) as [Hlo _].
    assert (Hneg : (1 - 0) / dt < 0).
    { unfold Rdiv. rewrite Rminus_0_r, Rmult_1_l. now apply Rinv_lt_0_compat. }
    assert (Hlt : IZR (Zceil ((1 - 0) / dt)) < 1) by lra.
    apply lt_IZR in Hlt. lia. }
  destruct (Zceil ((1 - 0) / dt)); try lia; reflexivity.
Qed.

Section Edges.
Context {E : Externals}.

(** X4.  With a positive step, [compute_violation_ratio] raises an
    [IndexError] as soon as one of the two samples is empty, and leaves
    the world as it was. *)
Theorem violation_ratio_empty_sample (a b : list R) (dt : R) (w : World) :
  0 < dt -> a = [] \/ b = [] ->
  compute_violation_ratio a b dt w = (Raise IndexError, w).
Proof.
  intros Hdt Hempty.
  assert (Hint : violation_integrals a b dt = Raise IndexError).
  { unfold violation_integrals. rewrite np_arange_grid by lra.
    pose proof (grid_points_nonempty dt Hdt) as Hg.
    destruct (grid_points dt) as [|p grid]; [contradiction|].
    cbn [rbind for_res]. unfold violation_step at 1.
    destruct b as [|y b].
    - now rewrite quantile_function_empty.
    - rewrite (quantile_function_ok (y :: b) p) by discriminate.
      destruct Hempty as [->|Hb]; [|discriminate].
      cbn [rbind]. now rewrite quantile_function_empty. }
  unfold compute_violation_ratio, bind, lift. now rewrite Hint.
Qed.

(** X5.  With a negative step the grid is empty and the samples are never
    read: whatever they are, [compute_violation_ratio] logs the
    division-by-zero warning and returns the int 0. *)
Theorem violation_ratio_negative_step (a b : list R) (dt : R) (w : World) :
  dt < 0 ->
  compute_violation_ratio a b dt w
  = (Ok (PyInt 0),
     mkWorld (rng w) (sched w) (events w ++ [Warning zero_division_warning])).
Proof.
  intros Hdt. apply (compute_violation_ratio_zero a b dt w 0).
  unfold violation_integrals. now rewrite (np_arange_negative dt Hdt).
Qed.

End Edges.

Lemma violation_ratio_empty_sample_witness :
  compute_violation_ratio (E := example_externals) [] [1] 0.5 example_world
  = (Raise IndexError, example_world).
Proof.
  apply (violation_ratio_empty_sample (E := example_externals)); [lra|now left].
Defined.

Lemma violation_ratio_negative_step_witness :
  fst (compute_violation_ratio (E := example_externals) [] [1] (-1) example_world)
  = Ok (PyInt 0).
Proof.
  rewrite (violation_ratio_negative_step (E := example_externals) [] [1] (-1)
             example_world); [reflexivity|lra].
Defined.

(** ** Resampling *)

Lemma map_res_quantile (scores ps : list R) :
  scores <> [] ->
  map_res (_quantile_function scores) ps = Ok (resample scores ps).
Proof.
  intros Hs. apply map_res_ok. intros p. now apply quantile_function_ok.
Qed.

(** X6.  On a non-empty sample the vectorized quantile function maps a
    non-empty array of probabilities of moderate size, inside [0,1] or
    not, to an array of the same length whose elements are all scores of
    the sample.  (A probability so large that [num * p] is [inf] in
    float64 makes [int(np.ceil(...))] raise instead.) *)
Theorem get_quantile_function_resamples (scores ps : list R) :
  scores <> [] -> ps <> [] -> moderate ps ->
  exists l,
    get_quantile_function scores ps = Ok l /\
    length l = length ps /\
    Forall (fun x => In x scores) l.
Proof.
  intros Hs Hp _. exists (resample scores ps).
  split; [now apply get_quantile_function_ok|].
  unfold resample. split; [apply length_map|].
  rewrite Forall_map, Forall_forall. intros p _. now apply quantile_In.
Qed.

Lemma get_quantile_function_resamples_witness :
  exists l,
    get_quantile_function [3; 1; 2] [-1; 0.5; 7] = Ok l /\
    length l = 3%nat /\ Forall (fun x => In x [3; 1; 2]) l.
Proof.
  apply (get_quantile_function_resamples [3; 1; 2] [-1; 0.5; 7]);
    try discriminate.
  repeat constructor; lra.
Defined.

(** ** Samples that do not overlap *)

Lemma quantile_diff_sign (a b : list R) (p : R) :
  a <> [] -> b <> [] ->
  (forall x y, In x a -> In y b -> y < x) -> quantile_diff a b p < 0.
Proof.
  intros Ha Hb H. unfold quantile_diff.
  pose proof (H _ _ (quantile_In a p Ha) (quantile_In b p Hb)). lra.
Qed.

Lemma wasserstein_sum_positive (a b : list R) (dt : R) :
  0 < dt -> (forall p, quantile_diff a b p <> 0) ->
  0 < wasserstein_sum a b dt (grid_points dt).
Proof.
  intros Hdt Hd. unfold wasserstein_sum. apply sum_list_pos.
  - pose proof (grid_points_nonempty dt Hdt).
    destruct (grid_points dt); [contradiction|discriminate].
  - rewrite Forall_map, Forall_forall. intros p _.
    apply Rmult_lt_0_compat; [|exact Hdt].
    specialize (Hd p). nra.
Qed.

Section Dominance.
Context {E : Externals}.

(** X8.  For moderate scores and a step between [1e-6] and 1: when every
    score of A is above every score of B by at least [1e-100] the
    violation ratio is exactly 0, and when every score of A is below every
    score of B by at least [1e-100] it is exactly 1 (the two sums are then
    the same sum); no warning is logged in either case.  The margin keeps
    the squares of the differences from vanishing in float64, where
    [1e-200 ** 2] is 0. *)
Theorem violation_ratio_disjoint_samples (a b : list R) (dt : R) (w : World) :
  a <> [] -> b <> [] -> moderate a -> moderate b -> 1e-6 <= dt <= 1 ->
  ((forall x y, In x a -> In y b -> y + 1e-100 <= x) ->
   compute_violation_ratio a b dt w = (Ok (NpFloat 0), w)) /\
  ((forall x y, In x a -> In y b -> x + 1e-100 <= y) ->
   compute_violation_ratio a b dt w = (Ok (NpFloat 1), w)).
Proof.
  intros Ha Hb _ _ [Hdt6 _].
  assert (Hdt : 0 < dt) by lra.
  assert (Hdt0 : dt <> 0) by lra.
  pose proof (violation_integrals_ok a b dt Ha Hb Hdt0) as Hint.
  split; intros Hsep.
  - assert (Hneg : forall p, quantile_diff a b p < 0).
    { intros p. apply quantile_diff_sign; auto.
      intros x y Hx Hy. specialize (Hsep x y Hx Hy). lra. }
    assert (HW : 0 < wasserstein_sum a b dt (grid_points dt)).
    { apply wasserstein_sum_positive; [exact Hdt|].
      intros p. specialize (Hneg p). lra. }
    assert (HV : violation_sum a b dt (grid_points dt) = 0).
    { unfold violation_sum. apply sum_list_zeros.
      rewrite Forall_map, Forall_forall. intros p _.
      rewrite py_maxR_0. specialize (Hneg p).
      destruct (Rlt_dec (quantile_diff a b p) 0); [ring|lra]. }
    rewrite (compute_violation_ratio_nonzero a b dt w _ _ Hint) by lra.
    rewrite HV. do 3 f_equal. unfold Rdiv. ring.
  - assert (Hpos : forall p, 0 < quantile_diff a b p).
    { intros p. unfold quantile_diff.
      pose proof (Hsep _ _ (quantile_In a p Ha) (quantile_In b p Hb)). lra. }
    assert (HW : 0 < wasserstein_sum a b dt (grid_points dt)).
    { apply wasserstein_sum_positive; [exact Hdt|].
      intros p. specialize (Hpos p). lra. }
    assert (HV : violation_sum a b dt (grid_points dt)
                 = wasserstein_sum a b dt (grid_points dt)).
    { unfold violation_sum, wasserstein_sum. f_equal. apply map_ext. intros p.
      rewrite py_maxR_0. specialize (Hpos p).
      destruct (Rlt_dec (quantile_diff a b p) 0); [lra|reflexivity]. }
    rewrite (compute_violation_ratio_nonzero a b dt w _ _ Hint) by lra.
    rewrite HV. do 3 f_equal. field. lra.
Qed.

End Dominance.

Lemma violation_ratio_disjoint_samples_witness :
  compute_violation_ratio (E := example_externals) [1; 2] [3; 5; 4] 0.5 example_world
  = (Ok (NpFloat 1), example_world).
Proof.
  apply (violation_ratio_disjoint_samples (E := example_externals));
    try discriminate; try lra; try (repeat constructor; lra).
  intros x y Hx Hy. simpl in Hx, Hy.
  repeat match goal with
         | H : _ \/ _ |- _ => destruct H
         | H : False |- _ => contradiction
         end; subst; lra.
Defined.

(** ** [aso] and [bf_aso] on samples with the same scores *)

Lemma quantile_permutation (a a' : list R) (p : R) :
  Permutation a a' -> quantile a' p = quantile a p.
Proof.
  intros Hp. unfold quantile, quantile_index, len.
  now rewrite (np_sort_permutation a a' Hp), (Permutation_length Hp).
Qed.

Lemma wasserstein_sum_permutation (a a' : list R) (dt : R) (grid : list R) :
  Permutation a a' -> wasserstein_sum a a' dt grid = 0.
Proof.
  intros Hp. unfold wasserstein_sum. apply sum_list_zeros.
  rewrite Forall_map, Forall_forall. intros p _. unfold quantile_diff.
  rewrite (quantile_permutation a a' p Hp). ring.
Qed.

Section SameScores.
Context {E : Externals}.

(** X9.  On two samples with the same scores (in any order, for instance
    a sample compared with itself) and otherwise valid arguments, [aso]
    and [bf_aso] do not return: the violation ratio is the int 0 and the
    subtraction [samples - violation_ratio] raises a [TypeError]. *)
Theorem aso_same_scores_raises (a a' : list R) (cl thr : R) (pr : prior)
    (num_samples nb : Z) (dt : R) (num_jobs : Z) (seed : option Z) (w : World) :
  a <> [] -> Permutation a a' -> (0 < num_samples)%Z -> (0 < nb)%Z -> 0 < dt ->
  (1 <= num_jobs)%Z ->
  (exists w', aso a a' cl num_samples nb dt num_jobs seed w = (Raise TypeError, w')) /\
  (exists w', bf_aso a a' thr pr num_samples nb dt num_jobs w = (Raise TypeError, w')).
Proof.
  intros Ha Hp Hn Hnb Hdt Hj.
  assert (Ha' : a' <> []).
  { intros ->. apply Permutation_sym, Permutation_nil in Hp. contradiction. }
  pose proof (wasserstein_sum_permutation a a' dt (grid_points dt) Hp) as HW.
  split.
  - now apply aso_degenerate.
  - now apply bf_aso_degenerate.
Qed.

End SameScores.

Lemma aso_same_scores_raises_witness :
  exists w',
    aso (E := example_externals) [1; 2; 3] [3; 1; 2] 0.05 1000 1000 0.005 1 None
      example_world = (Raise TypeError, w').
Proof.
  destruct (aso_same_scores_raises (E := example_externals) [1; 2; 3] [3; 1; 2]
              0.05 0.5 default_prior 1000 1000 0.005 1 None example_world)
    as [Haso _]; try discriminate; try lia; try lra.
  - apply Permutation_sym.
    apply perm_trans with (1 :: 3 :: [2]); [apply perm_swap|].
    apply perm_skip, perm_swap.
  - exact Haso.
Defined.

(** ** Seeds *)

Lemma violation_ratio_value_range (a b : list R) (dt : R) :
  0 < dt -> 0 <= num_val (violation_ratio_value a b dt) <= 1.
Proof.
  intros Hdt. unfold violation_ratio_value.
  destruct (Req_dec_T (wasserstein_sum a b dt (grid_points dt)) 0) as [Hz|Hnz].
  - simpl. lra.
  - simpl. unfold ratio_of.
    pose proof (violation_sum_bounds a b dt (grid_points dt) (Rlt_le _ _ Hdt))
      as [H0 H1].
    set (V := violation_sum a b dt (grid_points dt)) in *.
    set (W := wasserstein_sum a b dt (grid_points dt)) in *.
    assert (HW : 0 < W) by lra.
    split.
    + apply Rmult_le_pos; [exact H0|]. apply Rlt_le, Rinv_0_lt_compat, HW.
    + apply (Rmult_le_reg_r W); [exact HW|].
      unfold Rdiv. rewrite Rmult_assoc, Rinv_l by lra. lra.
Qed.

Lemma removelast_map {A B} (f : A -> B) (l : list A) :
  removelast (map f l) = map f (removelast l).
Proof.
  induction l as [|x l IH]; [reflexivity|].
  destruct l as [|y l]; [reflexivity|].
  cbn [map removelast] in *. now rewrite <- IH.
Qed.

Lemma removelast_seq (n : nat) : removelast (seq 0 (S n)) = seq 0 n.
Proof. rewrite seq_S. apply removelast_last. Qed.

Lemma tl_map_seq {B} (f : nat -> B) (n : nat) :
  tl (map f (seq 0 (S n))) = map (fun k => f (S k)) (seq 0 n).
Proof. cbn [seq map tl]. now rewrite <- seq_shift, map_map. Qed.

Section Seeds.
Context {E : Externals}.

Lemma seeded_estimates (a b : list R) (num_samples nb : Z) (dt : R)
    (num_jobs : Z) (seed : Z) (w : World) :
  a <> [] -> b <> [] -> (0 < num_samples)%Z -> 0 < dt -> (1 <= num_jobs)%Z ->
  wasserstein_sum a b dt (grid_points dt) <> 0 ->
  let samples :=
    map (fun k => sample_from a b num_samples dt
                    (seed_state (seed + Z.of_nat k + 1)))
        (seq 0 (Z.to_nat nb)) in
  exists w',
    get_bootstrap_estimates a b num_samples nb dt num_jobs (Some seed) w
    = (Ok (NpFloat (ratio_of a b dt),
           sigma_of num_samples (ratio_of a b dt) samples, samples), w').
Proof.
  intros Ha Hb Hn Hdt Hj HW samples.
  destruct (get_bootstrap_estimates_ok a b num_samples nb dt num_jobs (Some seed) w)
    as [s1 [w' [H1 F1]]]; auto; try lra; try lia.
  apply seeded_samples in F1.
  assert (Hs1 : s1 = samples).
  { rewrite F1. unfold samples. rewrite offsets_spec, map_map.
    apply map_ext. intros k. do 2 f_equal. lia. }
  rewrite Hs1 in H1. now exists w'.
Qed.

(** X10.  [aso] is reproducible: with a seed, two calls on the same
    arguments have the same outcome (the same bound, or the same
    exception) whatever the numbers of jobs, the state of the shared
    random generator and the decisions of the scheduler. *)
Theorem aso_reproducible (a b : list R) (cl : R) (num_samples nb : Z) (dt : R)
    (jobs1 jobs2 : Z) (seed : Z) (w1 w2 : World) :
  a <> [] -> b <> [] -> (0 < num_samples)%Z -> (0 < nb)%Z -> 0 < dt ->
  (1 <= jobs1)%Z -> (1 <= jobs2)%Z ->
  fst (aso a b cl num_samples nb dt jobs1 (Some seed) w1)
  = fst (aso a b cl num_samples nb dt jobs2 (Some seed) w2).
Proof.
  intros Ha Hb Hn Hnb Hdt Hj1 Hj2.
  destruct (Req_dec_T (wasserstein_sum a b dt (grid_points dt)) 0) as [HW|HW].
  - destruct (aso_degenerate a b cl num_samples nb dt jobs1 (Some seed) w1
                Ha Hb Hn Hnb Hdt Hj1 HW) as [w1' H1].
    destruct (aso_degenerate a b cl num_samples nb dt jobs2 (Some seed) w2
                Ha Hb Hn Hnb Hdt Hj2 HW) as [w2' H2].
    now rewrite H1, H2.
  - destruct (aso_ok a b cl num_samples nb dt jobs1 (Some seed) w1
                Ha Hb Hn Hnb Hdt Hj1 HW)
      as [sg1 [s1 [w1' [_ [_ [Hsg1 [F1 H1]]]]]]].
    destruct (aso_ok a b cl num_samples nb dt jobs2 (Some seed) w2
                Ha Hb Hn Hnb Hdt Hj2 HW)
      as [sg2 [s2 [w2' [_ [_ [Hsg2 [F2 H2]]]]]]].
    apply seeded_samples in F1. apply seeded_samples in F2.
    rewrite H1, H2, Hsg1, Hsg2, F1, F2. reflexivity.
Qed.

(** X11.  Neighbouring seeds share their random numbers: the bootstrap
    started with [seed + 1] recomputes the samples of the bootstrap
    started with [seed], shifted by one position (the samples of [seed]
    without the first are the samples of [seed + 1] without the last). *)
Theorem neighbouring_seeds_overlap (a b : list R) (num_samples nb : Z) (dt : R)
    (jobs1 jobs2 : Z) (seed : Z) (w1 w2 : World) :
  a <> [] -> b <> [] -> (0 < num_samples)%Z -> (0 < nb)%Z -> 0 < dt ->
  (1 <= jobs1)%Z -> (1 <= jobs2)%Z ->
  wasserstein_sum a b dt (grid_points dt) <> 0 ->
  exists v sigma1 sigma2 samples1 samples2 w1' w2',
    get_bootstrap_estimates a b num_samples nb dt jobs1 (Some seed) w1
    = (Ok (v, sigma1, samples1), w1') /\
    get_bootstrap_estimates a b num_samples nb dt jobs2 (Some (seed + 1)%Z) w2
    = (Ok (v, sigma2, samples2), w2') /\
    length samples1 = Z.to_nat nb /\
    length samples2 = Z.to_nat nb /\
    tl samples1 = removelast samples2.
Proof.
  intros Ha Hb Hn Hnb Hdt Hj1 Hj2 HW.
  destruct (seeded_estimates a b num_samples nb dt jobs1 seed w1
              Ha Hb Hn Hdt Hj1 HW) as [w1' H1].
  destruct (seeded_estimates a b num_samples nb dt jobs2 (seed + 1) w2
              Ha Hb Hn Hdt Hj2 HW) as [w2' H2].
  do 5 eexists. exists w1', w2'.
  split; [exact H1|]. split; [exact H2|].
  rewrite !length_map, !length_seq. split; [reflexivity|]. split; [reflexivity|].
  destruct (Z.to_nat nb) as [|n] eqn:Hnat; [lia|].
  rewrite tl_map_seq, removelast_map, removelast_seq.
  apply map_ext. intros k. do 2 f_equal. lia.
Qed.

End Seeds.

Lemma aso_reproducible_witness :
  fst (aso (E := example_externals) [1; 2] [3] 0.05 2 3 0.5 1 (Some 42%Z) example_world)
  = fst (aso (E := example_externals) [1; 2] [3] 0.05 2 3 0.5 4 (Some 42%Z) other_world).
Proof.
  apply (aso_reproducible (E := example_externals)); try discriminate; try lia; lra.
Defined.

Lemma neighbouring_seeds_overlap_witness :
  exists v sigma1 sigma2 samples1 samples2 w1' w2',
    get_bootstrap_estimates (E := example_externals) [1] [0] 2 3 0.5 1 (Some 42%Z)
      example_world = (Ok (v, sigma1, samples1), w1') /\
    get_bootstrap_estimates (E := example_externals) [1] [0] 2 3 0.5 4 (Some 43%Z)
      other_world = (Ok (v, sigma2, samples2), w2') /\
    length samples1 = 3%nat /\ length samples2 = 3%nat /\
    tl samples1 = removelast samples2.
Proof.
  apply (neighbouring_seeds_overlap (E := example_externals) [1] [0] 2 3 0.5 1 4 42
           example_world other_world); try discriminate; try lia; try lra.
  apply separated_one_zero. lra.
Defined.

(** ** The number of bootstrap samples *)

Section Samples.
Context {E : Externals}.

Lemma sample_from_range (a b : list R) (num_samples : Z) (dt : R) (g : G) :
  0 < dt -> 0 <= num_val (sample_from a b num_samples dt g) <= 1.
Proof.
  intros Hdt. unfold sample_from.
  destruct (draw_uniform (Z.to_nat num_samples) g) as [ua g1].
  destruct (draw_uniform (Z.to_nat num_samples) g1) as [ub g2].
  now apply violation_ratio_value_range.
Qed.

(** X12.  Whenever [get_bootstrap_estimates] returns, on non-empty
    samples of moderate scores, a positive number of resampled scores, a
    step in (0,1] and at least one job, it returns one sample per
    iteration, every sample is a number of [0,1], and when there is at
    least one iteration [sigma_hat] is a finite number that is not
    negative. *)
Theorem bootstrap_samples_shape (a b : list R) (num_samples nb : Z) (dt : R)
    (num_jobs : Z) (seed : option Z) (w : World)
    (v : pynum) (sigma_hat : xreal) (samples : list pynum) (w' : World) :
  a <> [] -> b <> [] -> moderate a -> moderate b ->
  (0 < num_samples)%Z -> 0 < dt <= 1 -> (1 <= num_jobs)%Z ->
  get_bootstrap_estimates a b num_samples nb dt num_jobs seed w
  = (Ok (v, sigma_hat, samples), w') ->
  length samples = Z.to_nat nb /\
  Forall (fun s => 0 <= num_val s <= 1) samples /\
  ((0 < nb)%Z -> exists s, sigma_hat = Fin s /\ 0 <= s).
Proof.
  intros Ha Hb _ _ Hn [Hdt _] Hj Hret.
  destruct (Req_dec_T (wasserstein_sum a b dt (grid_points dt)) 0) as [HW|HW].
  { destruct (get_bootstrap_estimates_degenerate a b num_samples nb dt num_jobs
                seed w) as [w1 H]; auto; try lra; try lia.
    rewrite H in Hret. discriminate. }
  destruct (get_bootstrap_estimates_ok a b num_samples nb dt num_jobs seed w)
    as [samples0 [w0 [Hest Hall]]]; auto; try lra; try lia.
  rewrite Hest in Hret. injection Hret as _ <- <- _.
  pose proof (Forall2_length Hall) as Hlen.
  rewrite bootstrap_seeds_length in Hlen.
  split; [now symmetry|]. split.
  - clear - Hall Hdt.
    induction Hall as [|sd v seeds samples [g [Hv _]] _ IH]; constructor; auto.
    rewrite Hv. now apply sample_from_range.
  - intros Hnb. unfold sigma_of. apply np_std_fin.
    destruct samples0; [simpl in Hlen; lia|discriminate].
Qed.

(** X13.  Called with [num_bootstrap_iterations <= 0] (and otherwise
    valid arguments), [get_bootstrap_estimates] runs no iteration, draws
    no number and returns the violation ratio with no sample and a
    [sigma_hat] that is [nan]. *)
Theorem bootstrap_without_iterations (a b : list R) (num_samples nb : Z) (dt : R)
    (num_jobs : Z) (seed : option Z) (w : World) :
  a <> [] -> b <> [] -> (0 < num_samples)%Z -> 0 < dt -> (1 <= num_jobs)%Z ->
  wasserstein_sum a b dt (grid_points dt) <> 0 -> (nb <= 0)%Z ->
  get_bootstrap_estimates a b num_samples nb dt num_jobs seed w
  = (Ok (NpFloat (ratio_of a b dt), NaN, []), w).
Proof.
  intros Ha Hb Hn Hdt Hj HW Hnb.
  assert (Hseeds : bootstrap_seeds seed nb = []).
  { unfold bootstrap_seeds, offsets.
    replace (Z.to_nat nb) with 0%nat by lia. now destruct seed. }
  unfold get_bootstrap_estimates. rewrite Hseeds.
  unfold bind at 1.
  rewrite (compute_violation_ratio_nonzero a b dt w _ _
             (violation_integrals_ok a b dt Ha Hb ltac:(lra)) HW).
  cbn [map]. unfold bind at 1. unfold Parallel.
  destruct (Z.eqb_spec num_jobs 0) as [H0|_]; [lia|].
  cbn [length run_pool combine seq repeat]. unfold bind at 1. unfold ret at 1.
  unfold ret at 1. unfold bind, lift. rewrite (py_div_const2 _ Hn).
  reflexivity.
Qed.

(** X14.  [bf_aso] raises the assertion error when a sample is empty,
    [num_bootstrap_samples <= 0], [num_bootstrap_iterations <= 0] or
    [num_jobs < 1], before any bootstrap work: the world is left as it
    was. *)
Theorem bf_aso_invalid_argument (a b : list R) (thr : R) (pr : prior)
    (num_samples nb : Z) (dt : R) (num_jobs : Z) (w : World) :
  a = [] \/ b = [] \/ (num_samples <= 0)%Z \/ (nb <= 0)%Z \/ (num_jobs < 1)%Z ->
  bf_aso a b thr pr num_samples nb dt num_jobs w = (Raise AssertionError, w).
Proof.
  intros H. unfold bf_aso, bind, py_assert, raise, ret.
  cbv beta zeta delta [score_conversion].
  destruct ((0 <? len a)%Z && (0 <? len b)%Z) eqn:Hab; [|reflexivity].
  destruct (Z.ltb_spec 0 num_samples) as [Hn|Hn]; [|reflexivity].
  destruct (Z.ltb_spec 0 nb) as [Hnb|Hnb]; [|reflexivity].
  destruct (Z.ltb_spec 0 num_jobs) as [Hj|Hj]; [|reflexivity].
  exfalso. apply andb_prop in Hab. destruct Hab as [Hla Hlb].
  apply Z.ltb_lt in Hla, Hlb.
  destruct H as [->|[->|[H|[H|H]]]]; try lia; unfold len in *; simpl in *; lia.
Qed.

End Samples.

Lemma bootstrap_samples_shape_witness :
  exists v sigma_hat samples w',
    get_bootstrap_estimates (E := example_externals) [1] [0] 2 3 0.5 1 None
      example_world = (Ok (v, sigma_hat, samples), w') /\
    length samples = 3%nat /\
    Forall (fun s => 0 <= num_val s <= 1) samples.
Proof.
  destruct (get_bootstrap_estimates_ok (E := example_externals) [1] [0] 2 3 0.5 1
              None example_world)
    as [samples [w' [Hest _]]]; try discriminate; try lia; try lra.
  { apply separated_one_zero. lra. }
  destruct (bootstrap_samples_shape (E := example_externals) [1] [0] 2 3 0.5 1 None
              example_world (NpFloat (ratio_of [1] [0] 0.5))
              (sigma_of 2 (ratio_of [1] [0] 0.5) samples) samples w')
    as [Hlen [Hall _]]; try discriminate; try lia; try lra;
    try (repeat constructor; lra); [exact Hest|].
  do 2 eexists. exists samples, w'. split; [exact Hest|]. split; assumption.
Defined.

Lemma bootstrap_without_iterations_witness :
  fst (get_bootstrap_estimates (E := example_externals) [1] [0] 2 0 0.5 1 None
         example_world)
  = Ok (NpFloat (ratio_of [1] [0] 0.5), NaN, []).
Proof.
  rewrite (bootstrap_without_iterations (E := example_externals) [1] [0] 2 0 0.5 1
             None example_world);
    try discriminate; try lia; try lra; try reflexivity.
  apply separated_one_zero. lra.
Defined.

Lemma bf_aso_invalid_argument_witness :
  bf_aso (E := example_externals) [1] [] 0.5 default_prior 1000 1000 0.005 1
    example_world
  = (Raise AssertionError, example_world).
Proof.
  apply (bf_aso_invalid_argument (E := example_externals)). right. left. reflexivity.
Defined.

(** ** [multi_aso]: few models, and the Bonferroni correction *)

Section FewModels.
Context {E : Externals}.

(** X15.  [multi_aso] on a nested list does not ask for two models: on an
    empty list it raises an [IndexError]; on a list with one model it
    raises a [ZeroDivisionError] when the Bonferroni correction is on
    (the number of comparisons is 0), and otherwise returns the 1 x 1
    identity matrix without looking at the scores. *)
Theorem multi_aso_few_models (s : list R) (cl : R) (use_symmetry : bool)
    (num_samples nb : Z) (dt : R) (num_jobs : Z) (seed : option Z) (w : World) :
  (forall use_bonferroni,
     multi_aso [] cl use_bonferroni use_symmetry num_samples nb dt num_jobs seed w
     = (Raise IndexError, w)) /\
  multi_aso [s] cl true use_symmetry num_samples nb dt num_jobs seed w
  = (Raise ZeroDivisionError, w) /\
  multi_aso [s] cl false use_symmetry num_samples nb dt num_jobs seed w
  = (Ok [[Fin 1]], w).
Proof.
  assert (Hnc : INR 1 * (INR 1 - 1) / 2 = 0) by (simpl; field).
  split; [|split].
  - intros use_bonferroni. reflexivity.
  - unfold multi_aso. cbn [_get_num_models length]. unfold bind, lift.
    rewrite Hnc. unfold py_div.
    destruct (Req_dec_T 0 0); [reflexivity|contradiction].
  - unfold multi_aso. cbn [_get_num_models length]. unfold bind, lift, ret.
    reflexivity.
Qed.

(** X16.  With at least two models, the Bonferroni correction is the
    division of the confidence level by the number [n * (n - 1) / 2] of
    pairs: [multi_aso] with [use_bonferroni=True] is [multi_aso] with
    [use_bonferroni=False] at the divided level. *)
Theorem multi_aso_bonferroni (scores : list (list R)) (cl : R) (use_symmetry : bool)
    (num_samples nb : Z) (dt : R) (num_jobs : Z) (seed : option Z) (w : World) :
  (2 <= length scores)%nat ->
  let n := INR (length scores) in
  multi_aso scores cl true use_symmetry num_samples nb dt num_jobs seed w
  = multi_aso scores (cl / (n * (n - 1) / 2)) false use_symmetry num_samples nb dt
      num_jobs seed w.
Proof.
  intros Hlen n.
  assert (Hn : 2 <= n).
  { unfold n. change 2 with (INR 2). apply le_INR. exact Hlen. }
  assert (Hnc : n * (n - 1) / 2 <> 0) by nra.
  subst n. unfold multi_aso.
  destruct scores as [|s0 scores]; [simpl in Hlen; lia|].
  cbn [_get_num_models].
  set (n := length (s0 :: scores)) in *.
  unfold bind, lift, ret, py_div.
  destruct (Req_dec_T (INR n * (INR n - 1) / 2) 0); [contradiction|].
  reflexivity.
Qed.

End FewModels.

Lemma multi_aso_bonferroni_witness :
  multi_aso (E := example_externals) [[1]; [0]; [2]] 0.05 true true 10 10 0.5 1 None
    example_world
  = multi_aso (E := example_externals) [[1]; [0]; [2]]
      (0.05 / (INR 3 * (INR 3 - 1) / 2)) false true 10 10 0.5 1 None example_world.
Proof.
  apply (multi_aso_bonferroni (E := example_externals) [[1]; [0]; [2]]).
  simpl. lia.
Defined.

(** ** [multi_aso]: the shape of the matrix and its last column *)

Lemma np_eye_square (n : nat) : square n (np_eye n).
Proof.
  unfold square, np_eye. split.
  - now rewrite length_map, length_seq.
  - rewrite Forall_map, Forall_forall. intros i _.
    now rewrite length_map, length_seq.
Qed.

Lemma np_eye_get (n i j : nat) :
  (i < n)%nat -> (j < n)%nat ->
  mat_get (np_eye n) i j = Ok (if Nat.eqb i j then Fin 1 else Fin 0).
Proof.
  intros Hi Hj. unfold mat_get, np_eye.
  rewrite nth_error_map, nth_error_seq.
  destruct (Nat.ltb_spec i n) as [_|H]; [|lia]. cbn [option_map].
  rewrite nth_error_map, nth_error_seq.
  destruct (Nat.ltb_spec j n) as [_|H]; [|lia]. reflexivity.
Qed.

Lemma mat_set_inv (m m' : matrix) (i j : nat) (v : xreal) :
  mat_set m i j v = Ok m' ->
  exists row, nth_error m i = Some row /\ (j < length row)%nat /\
              m' = list_set m i (list_set row j v).
Proof.
  unfold mat_set. intros H.
  destruct (nth_error m i) as [row|] eqn:Hrow; [|discriminate].
  destruct (nth_error row j) as [x|] eqn:Hx; [|discriminate].
  injection H as <-. exists row. repeat split.
  apply nth_error_Some. congruence.
Qed.

Lemma list_set_Forall {A} (P : A -> Prop) (l : list A) (k : nat) (v : A) :
  Forall P l -> P v -> Forall P (list_set l k v).
Proof.
  intros Hl Hv. revert k. induction Hl as [|x l Hx Hl IH]; intros [|k]; simpl;
    constructor; auto.
Qed.

Lemma mat_set_square (n : nat) (m m' : matrix) (i j : nat) (v : xreal) :
  square n m -> mat_set m i j v = Ok m' -> square n m'.
Proof.
  intros [Hlen Hrows] H.
  destruct (mat_set_inv _ _ _ _ _ H) as [row [Hrow [Hj ->]]].
  split.
  - now rewrite length_list_set.
  - apply list_set_Forall; [exact Hrows|].
    rewrite length_list_set.
    rewrite Forall_forall in Hrows. apply Hrows. eapply nth_error_In, Hrow.
Qed.

Lemma mat_set_other_column (m m' : matrix) (i j : nat) (v : xreal) (i' c : nat) :
  mat_set m i j v = Ok m' -> j <> c -> mat_get m' i' c = mat_get m i' c.
Proof.
  intros H Hjc.
  destruct (mat_set_inv _ _ _ _ _ H) as [row [Hrow [Hj ->]]].
  unfold mat_get. destruct (Nat.eq_dec i i') as [<-|Hii].
  - rewrite nth_error_list_set_eq, Hrow.
    + now rewrite (nth_error_list_set_neq row j c v Hjc).
    + apply nth_error_Some. congruence.
  - now rewrite (nth_error_list_set_neq m i i' _ Hii).
Qed.

Lemma enumerate_from_bound (n i j key_j : nat) :
  In (j, key_j) (enumerate_from n i) -> (j + 1 < n)%nat /\ (i + 1 < n)%nat.
Proof.
  unfold enumerate_from. intros H. apply in_combine_l in H.
  apply in_seq in H. lia.
Qed.

Section LastColumn.
Context {E : Externals}.

Lemma bind_ok {A B} (m : M A) (f : A -> M B) (w : World) (b : B) (w' : World) :
  bind m f w = (Ok b, w') ->
  exists a w1, m w = (Ok a, w1) /\ f a w1 = (Ok b, w').
Proof.
  unfold bind. destruct (m w) as [[a|e] w1]; [|discriminate].
  intros H. now exists a, w1.
Qed.

Lemma lift_ok {A} (r : res A) (w : World) (a : A) (w' : World) :
  lift r w = (Ok a, w') -> r = Ok a.
Proof. unfold lift. now intros [= ->]. Qed.

Lemma for_M_invariant {S A} (I : S -> Prop) (body : S -> A -> M S) (l : list A) :
  (forall s x w s' w', In x l -> I s -> body s x w = (Ok s', w') -> I s') ->
  forall s w s' w', I s -> for_M body l s w = (Ok s', w') -> I s'.
Proof.
  induction l as [|x l IH]; intros Hbody s w s' w' Hs H.
  - injection H as <- _. exact Hs.
  - cbn [for_M] in H. apply bind_ok in H. destruct H as [s1 [w1 [H1 H2]]].
    apply (IH (fun s x w s' w' Hin => Hbody s x w s' w' (or_intror Hin)) s1 w1 s' w');
      [|exact H2].
    apply (Hbody s x w s1 w1); [now left|exact Hs|exact H1].
Qed.

(** The invariant of the two loops: the array is [n] x [n] and its last
    column is the one of the identity. *)
Lemma multi_aso_body_invariant (n : nat) (scores : list (list R)) (cl : R)
    (use_symmetry : bool) (num_samples nb : Z) (dt : R) (num_jobs : Z)
    (seed : option Z) (i j key_j : nat) (m m' : matrix) (w w' : World) :
  (j + 1 < n)%nat -> (i + 1 < n)%nat ->
  square n m /\
  (forall i', mat_get m i' (n - 1) = mat_get (np_eye n) i' (n - 1)) ->
  multi_aso_body scores cl use_symmetry num_samples nb dt num_jobs seed i m
    (j, key_j) w = (Ok m', w') ->
  square n m' /\
  (forall i', mat_get m' i' (n - 1) = mat_get (np_eye n) i' (n - 1)).
Proof.
  intros Hj Hi [Hsq Hcol] H. unfold multi_aso_body in H.
  apply bind_ok in H. destruct H as [sa [w1 [_ H]]].
  apply bind_ok in H. destruct H as [sb [w2 [_ H]]].
  apply bind_ok in H. destruct H as [e [w3 [_ H]]].
  apply bind_ok in H. destruct H as [m1 [w4 [Hset1 H]]].
  apply lift_ok in Hset1.
  assert (Hsq1 : square n m1) by (eapply mat_set_square; eauto).
  assert (Hcol1 : forall i', mat_get m1 i' (n - 1) = mat_get (np_eye n) i' (n - 1)).
  { intros i'. rewrite <- Hcol. eapply mat_set_other_column; [exact Hset1|lia]. }
  destruct use_symmetry.
  - apply bind_ok in H. destruct H as [v [w5 [_ H]]].
    apply lift_ok in H. split.
    + eapply mat_set_square; eauto.
    + intros i'. rewrite <- Hcol1. eapply mat_set_other_column; [exact H|lia].
  - apply bind_ok in H. destruct H as [e' [w5 [_ H]]].
    apply lift_ok in H. split.
    + eapply mat_set_square; eauto.
    + intros i'. rewrite <- Hcol1. eapply mat_set_other_column; [exact H|lia].
Qed.

(** X17.  Whatever the options, a matrix that [multi_aso] returns for [n]
    models is [n] x [n] and its last column is the last column of the
    identity matrix: no result of [aso] is ever stored in column [n - 1],
    so that [M[i, n-1]] is 0 for every [i < n - 1] and [M[n-1, n-1]] is
    1. *)
Theorem multi_aso_last_column (scores : list (list R)) (cl : R)
    (use_bonferroni use_symmetry : bool) (num_samples nb : Z) (dt : R)
    (num_jobs : Z) (seed : option Z) (w w' : World) (m : matrix) :
  multi_aso scores cl use_bonferroni use_symmetry num_samples nb dt num_jobs seed w
  = (Ok m, w') ->
  let n := length scores in
  square n m /\
  forall i, (i < n)%nat ->
    mat_get m i (n - 1) = Ok (if Nat.eqb i (n - 1) then Fin 1 else Fin 0).
Proof.
  intros H n. unfold multi_aso in H.
  apply bind_ok in H. destruct H as [n' [w1 [Hn H]]].
  apply lift_ok in Hn.
  assert (Hn' : n' = n).
  { destruct scores; [discriminate|]. now injection Hn as <-. }
  subst n'.
  apply bind_ok in H. destruct H as [cl' [w2 [_ H]]].
  assert (Hinv : square n m /\
                 forall i', mat_get m i' (n - 1) = mat_get (np_eye n) i' (n - 1)).
  { refine (for_M_invariant
              (fun m => square n m /\
                 forall i', mat_get m i' (n - 1) = mat_get (np_eye n) i' (n - 1))
              _ (seq 0 n) _ (np_eye n) w2 m w' _ H).
    - intros m0 i w0 m1 w3 _ Hm0 Hinner.
      refine (for_M_invariant
                (fun m => square n m /\
                   forall i', mat_get m i' (n - 1) = mat_get (np_eye n) i' (n - 1))
                _ (enumerate_from n i) _ m0 w0 m1 w3 Hm0 Hinner).
      intros m2 [j key_j] w4 m3 w5 Hin Hm2 Hbody.
      destruct (enumerate_from_bound n i j key_j Hin) as [Hj Hi].
      exact (multi_aso_body_invariant n scores cl' use_symmetry num_samples nb dt
               num_jobs seed i j key_j m2 m3 w4 w5 Hj Hi Hm2 Hbody).
    - split; [apply np_eye_square|reflexivity]. }
  destruct Hinv as [Hsq Hcol]. split; [exact Hsq|].
  intros i Hi. rewrite Hcol. apply np_eye_get; lia.
Qed.

End LastColumn.

Lemma multi_aso_last_column_witness :
  exists m w',
    multi_aso (E := example_externals) [[1]; [0]] 0.05 true false 1000 1000 0.005 1
      None example_world = (Ok m, w') /\
    mat_get m 0 1 = Ok (Fin 0) /\ mat_get m 1 1 = Ok (Fin 1).
Proof.
  destruct (multi_aso_two (E := example_externals) [1] [0] 0.05 true false
              1000 1000 0.005 1 None example_world)
    as [e [w' [Hm _]]]; try discriminate; try lra; try lia.
  { apply separated_one_zero. lra. }
  destruct (multi_aso_last_column (E := example_externals) _ _ _ _ _ _ _ _ _ _ _ _ Hm)
    as [_ Hcol].
  eexists. exists w'. split; [exact Hm|].
  split; [exact (Hcol 0%nat ltac:(simpl; lia))|exact (Hcol 1%nat ltac:(simpl; lia))].
Defined.

(** ** [normal_inverse_gamma_cdf] is not a probability at variance 0 *)

(** X18.  At variance 0, with an argument [x] and a location of moderate
    size, a scale in [0, 1e100], a shape [alpha] in [1,10] at which the
    gamma function is finite and a rate [beta] in [1,10], the value of
    [normal_inverse_gamma_cdf] is a finite number that is at least 2, for
    every error function bounded below by -1: the function does not
    return a probability (the clip to [0,1] is commented out in the
    source). *)
Theorem normal_inverse_gamma_cdf_exceeds_one {E : Externals}
    (x loc scale alpha beta : R) :
  (forall t : R, -1 <= erf t) ->
  (exists g, gamma alpha = Fin g) ->
  -1e100 <= x <= 1e100 -> -1e100 <= loc <= 1e100 -> 0 <= scale <= 1e100 ->
  1 <= alpha <= 10 -> 1 <= beta <= 10 ->
  exists c,
    normal_inverse_gamma_cdf (Fin x) (Fin 0) (Fin loc) (Fin scale) (Fin alpha)
      (Fin beta) = Fin c /\ 2 <= c.
Proof.
  intros Herf Hgamma _ _ [Hscale _] [Halpha _] [Hbeta _].
  exact (normal_inverse_gamma_cdf_var_zero Herf x loc scale alpha beta
           Hscale Halpha Hbeta Hgamma).
Qed.

Lemma normal_inverse_gamma_cdf_exceeds_one_witness :
  exists c,
    normal_inverse_gamma_cdf (E := example_externals) (Fin 0.5) (Fin 0) (Fin 0.5)
      (Fin 0.5) (Fin 3) (Fin 1) = Fin c /\ 2 <= c.
Proof.
  apply (normal_inverse_gamma_cdf_exceeds_one (E := example_externals)
           0.5 0.5 0.5 3 1); try lra.
  - intros t. simpl. lra.
  - exists 1. reflexivity.
Defined.

(** ** [_progress_iter]: the shared progress bar *)

Lemma zip_progress_suspended {A} (high : Z) (seeds : list A) (c bar : Z) :
  (c + Z.of_nat (length seeds) < high)%Z ->
  zip_progress high seeds (GenSuspended c) bar
  = (combine seeds
       (map (fun k => (c + 1 + Z.of_nat k)%Z) (seq 0 (length seeds))),
     GenSuspended (c + Z.of_nat (length seeds)),
     (bar + Z.of_nat (length seeds))%Z).
Proof.
  revert c bar. induction seeds as [|s seeds IH]; intros c bar H.
  - simpl. now rewrite !Z.add_0_r.
  - cbn [zip_progress progress_next length].
    cbn [length] in H.
    destruct (Z.ltb_spec (c + 1) high) as [_|Hge]; [|lia].
    rewrite IH by lia.
    cbn [seq map combine]. rewrite <- seq_shift, map_map.
    f_equal; [f_equal|lia].
    + f_equal; [|]. 
      * f_equal. simpl. lia.
      * f_equal. apply map_ext. intros k. lia.
    + f_equal. lia.
Qed.

(** X19.  When [get_bootstrap_estimates] zips a non-empty list of seeds
    with the generator [_progress_iter(high, progress_bar)] and the
    generator has at least as many elements as there are seeds, the
    [k]-th seed is paired with [k], and at the end the generator is left
    suspended at its last [yield]: the shared progress bar has been
    updated one time less than there are iterations. *)
Theorem progress_bar_one_update_short {A} (high : Z) (seeds : list A) (bar : Z) :
  seeds <> [] -> (Z.of_nat (length seeds) <= high)%Z ->
  zip_progress high seeds GenNew bar
  = (combine seeds (map Z.of_nat (seq 0 (length seeds))),
     GenSuspended (Z.of_nat (length seeds) - 1),
     (bar + Z.of_nat (length seeds) - 1)%Z).
Proof.
  intros Hne Hlen. destruct seeds as [|s seeds]; [contradiction|].
  cbn [zip_progress progress_next length] in *.
  destruct (Z.ltb_spec 0 high) as [_|Hge]; [|lia].
  rewrite zip_progress_suspended by lia.
  cbn [seq map combine]. rewrite <- seq_shift, map_map.
  f_equal; [f_equal|lia].
  - f_equal. f_equal. apply map_ext. intros k. lia.
  - f_equal. lia.
Qed.

Lemma progress_bar_one_update_short_witness :
  zip_progress 3 (bootstrap_seeds (Some 5%Z) 3) GenNew 0
  = (combine (bootstrap_seeds (Some 5%Z) 3)
       (map Z.of_nat (seq 0 (length (bootstrap_seeds (Some 5%Z) 3)))),
     GenSuspended (Z.of_nat (length (bootstrap_seeds (Some 5%Z) 3)) - 1),
     (0 + Z.of_nat (length (bootstrap_seeds (Some 5%Z) 3)) - 1)%Z).
Proof.
  apply (progress_bar_one_update_short 3 (bootstrap_seeds (Some 5%Z) 3) 0).
  - discriminate.
  - simpl. lia.
Defined.

(** ** [aso]: the confidence level *)

Section ConfidenceLevel.
Context {E : Externals}.

Lemma normal_ppf_outside (p : R) : p < 0 \/ 1 < p -> normal_ppf p = NaN.
Proof.
  intros H. unfold normal_ppf.
  destruct (Req_dec_T p 1); [lra|]. destruct (Req_dec_T p 0); [lra|].
  destruct (Rlt_dec 0 p); [|reflexivity].
  destruct (Rlt_dec p 1); [lra|reflexivity].
Qed.

Lemma ratio_of_range (a b : list R) (dt : R) :
  0 < dt -> wasserstein_sum a b dt (grid_points dt) <> 0 ->
  0 <= ratio_of a b dt <= 1.
Proof.
  intros Hdt HW. pose proof (violation_ratio_value_range a b dt Hdt) as H.
  unfold violation_ratio_value in H.
  destruct (Req_dec_T (wasserstein_sum a b dt (grid_points dt)) 0);
    [contradiction|exact H].
Qed.

(** X20.  [aso] does not check its confidence level: on arguments that are
    valid otherwise, a confidence level below 0 or above 1 makes it return
    [nan] (the value of [normal.ppf] there, kept by the clamp). *)
Theorem aso_confidence_level_out_of_range (a b : list R) (cl : R)
    (num_samples nb : Z) (dt : R) (num_jobs : Z) (seed : option Z) (w : World) :
  a <> [] -> b <> [] -> (0 < num_samples)%Z -> (0 < nb)%Z -> 0 < dt ->
  (1 <= num_jobs)%Z -> wasserstein_sum a b dt (grid_points dt) <> 0 ->
  cl < 0 \/ 1 < cl ->
  fst (aso a b cl num_samples nb dt num_jobs seed w) = Ok NaN.
Proof.
  intros Ha Hb Hn Hnb Hdt Hj HW Hcl.
  destruct (aso_ok a b cl num_samples nb dt num_jobs seed w Ha Hb Hn Hnb Hdt Hj HW)
    as [sigma [samples [w' [Hest [_ [_ [_ Haso]]]]]]].
  rewrite Haso. cbn [fst]. f_equal. unfold min_epsilon_of.
  rewrite (xdiv_one_const1 a b Ha Hb), (normal_ppf_outside cl Hcl).
  reflexivity.
Qed.

(** X21.  Whenever [aso] returns, on valid arguments with moderate
    scores, a step in (0,1] and a confidence level in (0,1), it returns a
    number of [0,1] that lies on the side of the violation ratio given by
    the sign of the normal quantile: it is at least the violation ratio
    when [normal.ppf(confidence_level) <= 0], and at most the violation
    ratio when [normal.ppf(confidence_level) >= 0]. *)
Theorem aso_bounds_violation_ratio (a b : list R) (cl : R)
    (num_samples nb : Z) (dt : R) (num_jobs : Z) (seed : option Z) (w : World)
    (r : xreal) (w' : World) :
  a <> [] -> b <> [] -> moderate a -> moderate b ->
  (0 < num_samples)%Z -> (0 < nb)%Z -> 0 < dt <= 1 -> (1 <= num_jobs)%Z ->
  0 < cl < 1 ->
  aso a b cl num_samples nb dt num_jobs seed w = (Ok r, w') ->
  exists e,
    r = Fin e /\
    0 <= e <= 1 /\
    (probit cl <= 0 -> ratio_of a b dt <= e) /\
    (0 <= probit cl -> e <= ratio_of a b dt).
Proof.
  intros Ha Hb _ _ Hn Hnb [Hdt _] Hj Hcl Hret.
  destruct (Req_dec_T (wasserstein_sum a b dt (grid_points dt)) 0) as [HW|HW].
  { destruct (aso_degenerate a b cl num_samples nb dt num_jobs seed w Ha Hb Hn Hnb
                Hdt Hj HW) as [w1 H].
    rewrite H in Hret. discriminate. }
  destruct (aso_ok a b cl num_samples nb dt num_jobs seed w Ha Hb Hn Hnb Hdt Hj HW)
    as [sigma [samples [w0 [Hest [Hsig [_ [_ Haso]]]]]]].
  pose proof (ratio_of_range a b dt Hdt HW) as [Hv0 Hv1].
  pose proof (const1_pos a b Ha Hb) as Hc.
  rewrite Haso, (min_epsilon_inside a b cl _ sigma Ha Hb Hcl) in Hret.
  injection Hret as <- _.
  set (v := ratio_of a b dt) in *.
  assert (Ht : 0 <= 1 / const1_of a b * sigma).
  { apply Rmult_le_pos; [|exact Hsig].
    apply Rlt_le, Rdiv_lt_0_compat; lra. }
  set (t := 1 / const1_of a b * sigma) in *.
  eexists. split; [reflexivity|].
  unfold Rmin, Rmax.
  repeat split;
    try (intros Hp);
    destruct (Rle_dec (v - t * probit cl) 0);
    destruct (Rle_dec 0 1); try lra;
    try (destruct (Rle_dec (v - t * probit cl) 1));
    try (destruct (Rle_dec 0 1)); try lra; try nra.
Qed.

End ConfidenceLevel.

Lemma aso_confidence_level_out_of_range_witness :
  fst (aso (E := example_externals) [1] [0] 1.5 1000 1000 0.005 1 None
         example_world) = Ok NaN.
Proof.
  apply (aso_confidence_level_out_of_range (E := example_externals) [1] [0] 1.5
           1000 1000 0.005 1 None example_world);
    try discriminate; try lia; try lra.
  apply separated_one_zero. lra.
Defined.

Lemma aso_bounds_violation_ratio_witness :
  exists e,
    fst (aso (E := example_externals) [1] [0] 0.05 1000 1000 0.005 1 None
           example_world) = Ok (Fin e) /\
    0 <= e <= 1 /\ ratio_of [1] [0] 0.005 <= e <= ratio_of [1] [0] 0.005.
Proof.
  destruct (aso_ok (E := example_externals) [1] [0] 0.05 1000 1000 0.005 1 None
              example_world)
    as [sigma [samples [w' [_ [_ [_ [_ Haso]]]]]]];
    try discriminate; try lia; try lra.
  { apply separated_one_zero. lra. }
  destruct (aso_bounds_violation_ratio (E := example_externals) [1] [0] 0.05
              1000 1000 0.005 1 None example_world
              (min_epsilon_of (E := example_externals) [1] [0] 0.05
                 (ratio_of [1] [0] 0.005) (Fin sigma)) w')
    as [e [He [Hr [Hlo Hhi]]]]; try discriminate; try lia; try lra;
    try (repeat constructor; lra); [exact Haso|].
  exists e. rewrite Haso, He. split; [reflexivity|]. split; [exact Hr|].
  split; [apply Hlo|apply Hhi]; simpl; lra.
Defined.
